(** * christmas-tree: a shallow embedding of the scene components

    The development follows the TypeScript sources component by component:

    - [TreeTrunk]   (the trunk particle system: shader easing, progress
                     uniform, per-particle attributes),
    - [Experience]  (the hand-tracking camera callback),
    - [UIOverlay]   (the file-upload handler),
    - [MusicPlayer] (the music toggle),
    - [Polaroids]   (the polaroid items and the pinch selection).

    Numbers of the JavaScript and GLSL code are read as exact numbers:
    rationals ([Q]) where the code only adds, multiplies and compares, reals
    ([R]) where it calls [Math.sin], [Math.cos], [Math.hypot] and the like.
    Rounding of IEEE double arithmetic is not part of the model; a store
    into a [Float32Array] cell rounds to binary32.  A call of [Math.random()] is a draw from an explicit stream of
    rationals; the statements assume each draw to lie in [0, 1). *)

From Stdlib Require Import ZArith QArith Qround Qminmax Qpower Qreals Reals Zfloor
  Psatz.
From Stdlib Require Import List Bool String Ascii.
Import ListNotations.

Close Scope R_scope.
Close Scope Q_scope.
Open Scope string_scope.

(* ================================================================== *)
(** * Shared types *)

(** Modelled from the spec: the enum [TreeMode] of [../types] is imported by
    every component but is not among the sources.  The spec names three
    display modes: the scattered ("chaos") layout, the assembled ("formed")
    layout and the "pinch" focus mode; the sources use [TreeMode.FORMED] and
    [TreeMode.PINCH]. *)
Inductive TreeMode : Type :=
  | CHAOS
  | FORMED
  | PINCH.

(** [a === b] on modes. *)
Definition TreeMode_eqb (a b : TreeMode) : bool :=
  match a, b with
  | CHAOS, CHAOS | FORMED, FORMED | PINCH, PINCH => true
  | _, _ => false
  end.

(** What the code prints on the console. *)
Inductive ConsoleEntry : Type :=
  | console_warn (msg : string) (detail : string)
  | console_error (msg : string) (detail : string).

(** A stream of [Math.random()] results, indexed by the number of the call. *)
Definition RandomStream : Type := nat -> Q.

Definition unit_draws (rand : RandomStream) : Prop :=
  forall k : nat, (0 <= rand k)%Q /\ (rand k < 1)%Q.

(** [THREE.Vector3]. *)
Record Vector3 : Type := mkVector3 { vx : R; vy : R; vz : R }.

(* ================================================================== *)
(** * TreeTrunk (src/unnamed/part_000) *)

Module TreeTrunk.

Section Shader.
Local Open Scope Q_scope.

(** GLSL [pow(x, 3.0)] for a base [x >= 0]; GLSL leaves [pow] undefined
    for a negative base, and [pow3] says nothing of the shader there.
    [cubicInOut] reaches it with the base [-2 t + 2], which is non-negative
    for [t <= 1]; the shader calls [cubicInOut] on [localProgress], which is
    clamped to [0, 1], and the properties below keep to [t <= 1]. *)
Definition pow3 (x : Q) : Q := x ^ 3.

(** [float cubicInOut(float t)] of the vertex shader. *)
Definition cubicInOut (t : Q) : Q :=
  if Qlt_le_dec t 0.5
  then 4.0 * t * t * t
  else 1.0 - pow3 (-2.0 * t + 2.0) / 2.0.

(** GLSL [clamp(x, lo, hi)] = [min(max(x, lo), hi)]. *)
Definition clamp (x lo hi : Q) : Q := Qmin (Qmax x lo) hi.

(** [localProgress] of [main]. *)
Definition localProgress (uProgress aRandom : Q) : Q :=
  clamp (uProgress * 1.2 - aRandom * 0.2) 0.0 1.0.

Definition easedProgress (uProgress aRandom : Q) : Q :=
  cubicInOut (localProgress uProgress aRandom).

End Shader.

Section Progress.
Local Open Scope Q_scope.

(** [THREE.MathUtils.lerp(x, y, t)] is [(1 - t) * x + t * y]. *)
Definition lerp (x y t : Q) : Q := (1 - t) * x + t * y.

Record Uniforms : Type := mkUniforms { uTime : Q; uProgress : Q }.

(** The mutable cells of the component: the material reached through
    [meshRef.current] (absent until the points object is mounted) and
    [progressRef.current]. *)
Record TrunkState : Type := mkTrunkState {
  meshRef : option Uniforms;
  progressRef : Q
}.

(** [useRef(0)] and the initial uniforms. *)
Definition initial (mounted : bool) : TrunkState :=
  {| meshRef := if mounted then Some {| uTime := 0; uProgress := 0 |} else None;
     progressRef := 0 |}.

(** [const target = mode === TreeMode.FORMED ? 1 : 0]. *)
Definition progressTarget (mode : TreeMode) : Q :=
  if TreeMode_eqb mode FORMED then 1 else 0.

Record Frame : Type := mkFrame {
  frame_mode : TreeMode;
  elapsedTime : Q;
  delta : Q
}.

(** The [useFrame] callback. *)
Definition useFrame (f : Frame) (s : TrunkState) : TrunkState :=
  match meshRef s with
  | Some _ =>
      let target := progressTarget (frame_mode f) in
      let p := lerp (progressRef s) target (delta f * 3.5) in
      {| meshRef := Some {| uTime := elapsedTime f; uProgress := p |};
         progressRef := p |}
  | None => s
  end.

(** A run of the render loop. *)
Definition runFrames (fs : list Frame) (s : TrunkState) : TrunkState :=
  fold_left (fun st f => useFrame f st) fs s.

End Progress.

Section Attributes.
Local Open Scope R_scope.

(** ** binary32

    A [Float32Array] cell holds a binary32 number: a store rounds the value
    to the nearest one, ties to the even significand.  For [x > 0],
    [binade x] is the [e] with [2 ^ (e - 1) <= x < 2 ^ e]; the binary32
    numbers next to [x] are the multiples of [ulp32 x], which is
    [2 ^ (e - 24)] (24 bits of significand) and [2 ^ -149] in the subnormal
    range.  Values of magnitude [2 ^ 128] and more, which a store turns into
    an infinity, do not occur in what follows. *)
Definition binade (x : R) : Z := Zfloor (ln x / ln 2) + 1.

Definition ulp32 (x : R) : R := powerRZ 2 (Z.max (binade x) (-125) - 24).

(** The integer nearest to [y], the even one of the two when [y] is half-way. *)
Definition nearestEven (y : R) : Z :=
  let f := Zfloor y in
  if Rlt_dec (y - IZR f) (1 / 2) then f
  else if Rlt_dec (1 / 2) (y - IZR f) then (f + 1)%Z
  else if Z.even f then f else (f + 1)%Z.

Definition froundPos (x : R) : R := IZR (nearestEven (x / ulp32 x)) * ulp32 x.

(** [Math.fround], the rounding of a store into a [Float32Array]. *)
Definition fround (x : R) : R :=
  if Rlt_dec 0 x then froundPos x
  else if Rlt_dec x 0 then - froundPos (- x)
  else 0.

(** A write into a [Float32Array]: the value is rounded to binary32, and an
    index past the end is ignored. *)
Fixpoint write (i : nat) (v : R) (a : list R) : list R :=
  match a, i with
  | [], _ => []
  | _ :: t, O => fround v :: t
  | h :: t, S j => h :: write j v t
  end.

(** [Math.cbrt]: the real cube root. *)
Definition cbrt (x : R) : R :=
  match Rlt_dec 0 x with
  | left _ => Rpower x (/ 3)
  | right _ =>
      match Rlt_dec x 0 with
      | left _ => - Rpower (- x) (/ 3)
      | right _ => 0
      end
  end.

Definition trunkHeight : R := 2.0.
Definition trunkRadius : R := 1.0.
Definition trunkBottomY : R := -2.

(** The state of the loop of [useMemo]: the three arrays and the number of
    [Math.random()] calls made so far. *)
Record Buffers : Type := mkBuffers {
  chaosPositions : list R;
  targetPositions : list R;
  randoms : list R;
  calls : nat
}.

(** One iteration of [for (let i = 0; i < count; i++)]. *)
Definition fillParticle (rand : RandomStream) (b : Buffers) (i : nat) : Buffers :=
  let k := calls b in
  let r := 25 * cbrt (Q2R (rand k)) in
  let theta := Q2R (rand (k + 1)%nat) * 2 * PI in
  let phi := acos (2 * Q2R (rand (k + 2)%nat) - 1) in
  let chaos0 := write (i * 3) (r * sin phi * cos theta) (chaosPositions b) in
  let chaos1 := write (i * 3 + 1) (r * sin phi * sin theta + 5) chaos0 in
  let chaos2 := write (i * 3 + 2) (r * cos phi) chaos1 in
  let height := Q2R (rand (k + 3)%nat) * trunkHeight in
  let angle := Q2R (rand (k + 4)%nat) * 2 * PI in
  let radius := Q2R (rand (k + 5)%nat) * trunkRadius in
  let target0 := write (i * 3) (cos angle * radius) (targetPositions b) in
  let target1 := write (i * 3 + 1) (trunkBottomY + height) target0 in
  let target2 := write (i * 3 + 2) (sin angle * radius) target1 in
  let rnd := write i (Q2R (rand (k + 6)%nat)) (randoms b) in
  {| chaosPositions := chaos2;
     targetPositions := target2;
     randoms := rnd;
     calls := (k + 7)%nat |}.

(** [new Float32Array(n)]: [n] zeros. *)
Definition Float32Array (n : nat) : list R := repeat 0 n.

(** The body of [useMemo(() => ..., [count])]. *)
Definition particleAttributes (count : nat) (rand : RandomStream) : Buffers :=
  fold_left (fillParticle rand) (seq 0 count)
    {| chaosPositions := Float32Array (count * 3);
       targetPositions := Float32Array (count * 3);
       randoms := Float32Array count;
       calls := 0 |}.

(** The three coordinates of particle [i] in an array of item size 3. *)
Definition vec3At (a : list R) (i : nat) : Vector3 :=
  {| vx := nth (i * 3) a 0; vy := nth (i * 3 + 1) a 0; vz := nth (i * 3 + 2) a 0 |}.

(** The intended bounds: the trunk cylinder, the ball of the chaos
    positions, and both together with the seed for particle [i]. *)
Definition inTrunkCylinder (t : Vector3) : Prop :=
  vx t * vx t + vz t * vz t <= 1 /\ -2 <= vy t <= 0.

Definition inChaosBall (c : Vector3) : Prop :=
  vx c * vx c + (vy c - 5) * (vy c - 5) + vz c * vz c <= 25 * 25.

(** The values that one iteration computes, before they are stored, when
    [k] calls of [Math.random()] have been made before it. *)
Record Particle : Type := mkParticle {
  chaosPosition : Vector3;
  targetPosition : Vector3;
  seed : R
}.

Definition particleAt (rand : RandomStream) (k : nat) : Particle :=
  let r := 25 * cbrt (Q2R (rand k)) in
  let theta := Q2R (rand (k + 1)%nat) * 2 * PI in
  let phi := acos (2 * Q2R (rand (k + 2)%nat) - 1) in
  let height := Q2R (rand (k + 3)%nat) * trunkHeight in
  let angle := Q2R (rand (k + 4)%nat) * 2 * PI in
  let radius := Q2R (rand (k + 5)%nat) * trunkRadius in
  {| chaosPosition :=
       mkVector3 (r * sin phi * cos theta) (r * sin phi * sin theta + 5)
                 (r * cos phi);
     targetPosition :=
       mkVector3 (cos angle * radius) (trunkBottomY + height) (sin angle * radius);
     seed := Q2R (rand (k + 6)%nat) |}.

(** The three coordinates as the cells of a [Float32Array] hold them. *)
Definition roundVector3 (v : Vector3) : Vector3 :=
  {| vx := fround (vx v); vy := fround (vy v); vz := fround (vz v) |}.

(** Particle [i] of the buffers holds the rounded values of [p]. *)
Definition holdsParticle (b : Buffers) (i : nat) (p : Particle) : Prop :=
  vec3At (targetPositions b) i = roundVector3 (targetPosition p) /\
  vec3At (chaosPositions b) i = roundVector3 (chaosPosition p) /\
  nth i (randoms b) 0 = fround (seed p).

(** The loop keeps the sizes of the arrays. *)
Definition sized (count : nat) (b : Buffers) : Prop :=
  List.length (chaosPositions b) = (count * 3)%nat /\
  List.length (targetPositions b) = (count * 3)%nat /\
  List.length (randoms b) = count.

End Attributes.

End TreeTrunk.

(* ================================================================== *)
(** * Experience (src/unnamed/part_001) *)

Module Experience.

Section Camera.
Local Open Scope R_scope.

(** The prop [handPosition]. *)
Record HandPosition : Type := mkHandPosition {
  hand_x : R;
  hand_y : R;
  detected : bool
}.

(** The state of the [OrbitControls] object that is not its camera position
    or its target (spherical angles, damping deltas, limits). *)
Variable Internals : Type.

(** [controlsRef.current]: the camera position [controls.object.position],
    [controls.target] and the rest. *)
Record Controls : Type := mkControls {
  object_position : Vector3;
  target : Vector3;
  internals : Internals
}.

(** The methods of [OrbitControls] the callback calls; they belong to the
    library and are left abstract. *)
Variable getAzimuthalAngle : Controls -> R.
Variable getPolarAngle : Controls -> R.
Variable getDistance : Controls -> R.
Variable update : Controls -> Controls.

(** The two refs of the component. *)
Record State : Type := mkState {
  controlsRef : option Controls;
  prevHandPos : R * R
}.

Definition MOVEMENT_THRESHOLD : R := 0.005.

(** [Math.hypot(a, b)]. *)
Definition hypot (a b : R) : R := sqrt (a * a + b * b).

(** The camera move of the inner branch. *)
Definition moveCamera (hand : HandPosition) (delta : R) (controls : Controls)
  : Controls :=
  let targetAzimuth := (hand_x hand - 0.5) * PI * 2 in
  let adjustedY := (hand_y hand - 0.2) * 1.5 in
  let clampedY := Rmax 0 (Rmin 1 adjustedY) in
  let minPolar := PI / 4 in
  let maxPolar := PI / 1.8 in
  let targetPolar := minPolar + clampedY * (maxPolar - minPolar) in
  let currentAzimuth := getAzimuthalAngle controls in
  let currentPolar := getPolarAngle controls in
  let azimuthDiff0 := targetAzimuth - currentAzimuth in
  let azimuthDiff1 :=
    if Rlt_dec PI azimuthDiff0 then azimuthDiff0 - PI * 2 else azimuthDiff0 in
  let azimuthDiff :=
    if Rlt_dec azimuthDiff1 (- PI) then azimuthDiff1 + PI * 2 else azimuthDiff1 in
  let lerpSpeed := 10 in
  let newAzimuth := currentAzimuth + azimuthDiff * delta * lerpSpeed in
  let newPolar := currentPolar + (targetPolar - currentPolar) * delta * lerpSpeed in
  let radius := getDistance controls in
  let normalizedHandY := Rmax 0 (Rmin 1 (hand_y hand)) in
  let targetY := 7 - normalizedHandY * 4 in
  let x := radius * sin newPolar * sin newAzimuth in
  let y := targetY + radius * cos newPolar in
  let z := radius * sin newPolar * cos newAzimuth in
  update {| object_position := mkVector3 x y z;
            target := mkVector3 0 targetY 0;
            internals := internals controls |}.

(** The [useFrame] callback. *)
Definition useFrame (hand : HandPosition) (delta : R) (s : State) : State :=
  match controlsRef s with
  | Some controls =>
      if detected hand then
        let movement :=
          hypot (hand_x hand - fst (prevHandPos s))
                (hand_y hand - snd (prevHandPos s)) in
        if Rlt_dec MOVEMENT_THRESHOLD movement then
          {| controlsRef := Some (moveCamera hand delta controls);
             prevHandPos := (hand_x hand, hand_y hand) |}
        else s
      else s
  | None => s
  end.

(** The parts of [moveCamera], named: the polar angle the hand asks for, *)
Definition targetPolarOf (hand : HandPosition) : R :=
  let adjustedY := (hand_y hand - 0.2) * 1.5 in
  let clampedY := Rmax 0 (Rmin 1 adjustedY) in
  let minPolar := PI / 4 in
  let maxPolar := PI / 1.8 in
  minPolar + clampedY * (maxPolar - minPolar).

(** the difference of azimuths after the two wrapping tests, *)
Definition wrapAzimuth (azimuthDiff0 : R) : R :=
  let azimuthDiff1 :=
    if Rlt_dec PI azimuthDiff0 then azimuthDiff0 - PI * 2 else azimuthDiff0 in
  if Rlt_dec azimuthDiff1 (- PI) then azimuthDiff1 + PI * 2 else azimuthDiff1.

(** the interpolated angles, *)
Definition newAzimuthOf (hand : HandPosition) (delta : R) (controls : Controls)
  : R :=
  getAzimuthalAngle controls
  + wrapAzimuth ((hand_x hand - 0.5) * PI * 2 - getAzimuthalAngle controls)
    * delta * 10.

Definition newPolarOf (hand : HandPosition) (delta : R) (controls : Controls)
  : R :=
  getPolarAngle controls
  + (targetPolarOf hand - getPolarAngle controls) * delta * 10.

(** the height of the target, *)
Definition targetYOf (hand : HandPosition) : R :=
  7 - Rmax 0 (Rmin 1 (hand_y hand)) * 4.

(** and the controls as they are when [controls.update()] is called. *)
Definition placeCamera (hand : HandPosition) (delta : R) (controls : Controls)
  : Controls :=
  let radius := getDistance controls in
  let newPolar := newPolarOf hand delta controls in
  let newAzimuth := newAzimuthOf hand delta controls in
  {| object_position :=
       mkVector3 (radius * sin newPolar * sin newAzimuth)
                 (targetYOf hand + radius * cos newPolar)
                 (radius * sin newPolar * cos newAzimuth);
     target := mkVector3 0 (targetYOf hand) 0;
     internals := internals controls |}.

End Camera.

End Experience.

(* ================================================================== *)
(** * UIOverlay (src/components/UIOverlay.tsx, src/unnamed/part_002) *)

Module UIOverlay.

(** What [reader.readAsDataURL(file)] leads to: a [load] event whose
    [event.target.result] is the data URL, or no [load] event at all (the
    read fails; the reader has no other handler). *)
Inductive ReadOutcome : Type :=
  | ReadLoaded (result : string)
  | ReadFailed.

(** A [File] of the input's [FileList]: its MIME type and how its read ends. *)
Record File : Type := mkFile {
  type : string;
  read : ReadOutcome
}.

(** A promise that is never rejected: resolved with a value, or pending
    for ever. *)
Definition Promise (A : Type) : Type := option A.

(** A JavaScript string is truthy when it is not empty. *)
Definition truthy (s : string) : bool := negb (String.eqb s EmptyString).

(** [new Promise((resolve) => { reader.onload = ...; reader.readAsDataURL(file) })]. *)
Definition readAsDataURL (file : File) : Promise string :=
  match read file with
  | ReadLoaded result => if truthy result then Some result else None
  | ReadFailed => None
  end.

(** The loop over [files]: files whose type does not start with [image/] are
    skipped, the others push their promise. *)
Fixpoint readers (files : list File) : list (Promise string) :=
  match files with
  | [] => []
  | file :: rest =>
      if negb (String.prefix "image/" (type file)) then readers rest
      else readAsDataURL file :: readers rest
  end.

(** [Promise.all]: resolved with all the values, in order, once every
    promise is resolved. *)
Fixpoint Promise_all {A : Type} (ps : list (Promise A)) : Promise (list A) :=
  match ps with
  | [] => Some []
  | p :: rest =>
      match p, Promise_all rest with
      | Some v, Some vs => Some (v :: vs)
      | _, _ => None
      end
  end.

(** [handleFileChange]: the list of the calls of [onPhotosUpload], each with
    its argument.  [None] is [e.target.files] being null. *)
Definition handleFileChange (files : option (list File)) : list (list string) :=
  match files with
  | None => []
  | Some [] => []
  | Some fs =>
      match Promise_all (readers fs) with
      | Some urls => [urls]
      | None => []
      end
  end.

(** The data URLs of the selected files whose type starts with [image/],
    in the order of the selection. *)
Fixpoint imageDataURLs (files : list File) : list string :=
  match files with
  | [] => []
  | file :: rest =>
      if String.prefix "image/" (type file) then
        match read file with
        | ReadLoaded result => result :: imageDataURLs rest
        | ReadFailed => imageDataURLs rest
        end
      else imageDataURLs rest
  end.

(** ** The label editor of src/components/UIOverlay.tsx *)

(** [photoLabels[index] || "Happy Memories"]. *)
Definition labelOrDefault (photoLabels : list string) (index : nat) : string :=
  match nth_error photoLabels index with
  | Some l => if truthy l then l else "Happy Memories"
  | None => "Happy Memories"
  end.

(** The [useState] cells of the editor ([selectedPhotoIndex] is never read
    nor set and is left out). *)
Record EditorState : Type := mkEditorState {
  isEditingLabel : bool;
  tempLabelText : string;
  editingPhotoIndex : option nat
}.

Definition editorInitial (photoLabels : list string) : EditorState :=
  {| isEditingLabel := false;
     tempLabelText := labelOrDefault photoLabels 0;
     editingPhotoIndex := None |}.

(** The handlers of the editor, by the element that fires them. *)
Inductive EditorEvent : Type :=
  | EditLabel
  | CloseModal
  | SaveLabel
  | CancelEdit
  | PhotoEdit (index : nat)
  | LabelChange (value : string).

(** One handler: the new state and the calls of [onPhotoLabelChange] it
    makes.  [hasCallback] is the optional prop being given. *)
Definition handleEditor (hasCallback : bool) (photoLabels : list string)
  (e : EditorEvent) (s : EditorState) : EditorState * list (nat * string) :=
  match e with
  | EditLabel =>
      ({| isEditingLabel := true;
          tempLabelText := tempLabelText s;
          editingPhotoIndex := editingPhotoIndex s |}, [])
  | CloseModal =>
      ({| isEditingLabel := false;
          tempLabelText := tempLabelText s;
          editingPhotoIndex := editingPhotoIndex s |}, [])
  | SaveLabel =>
      ({| isEditingLabel := isEditingLabel s;
          tempLabelText := "Happy Memories";
          editingPhotoIndex := None |},
       match editingPhotoIndex s with
       | Some index => if hasCallback then [(index, tempLabelText s)] else []
       | None => []
       end)
  | CancelEdit =>
      ({| isEditingLabel := isEditingLabel s;
          tempLabelText := "Happy Memories";
          editingPhotoIndex := None |}, [])
  | PhotoEdit index =>
      ({| isEditingLabel := isEditingLabel s;
          tempLabelText := labelOrDefault photoLabels index;
          editingPhotoIndex := Some index |}, [])
  | LabelChange value =>
      ({| isEditingLabel := isEditingLabel s;
          tempLabelText := value;
          editingPhotoIndex := editingPhotoIndex s |}, [])
  end.

(** A sequence of handlers: the final state and all the calls, in order. *)
Fixpoint handleEditorEvents (hasCallback : bool) (photoLabels : list string)
  (es : list EditorEvent) (s : EditorState) : EditorState * list (nat * string) :=
  match es with
  | [] => (s, [])
  | e :: rest =>
      let '(s1, calls1) := handleEditor hasCallback photoLabels e s in
      let '(s2, calls2) := handleEditorEvents hasCallback photoLabels rest s1 in
      (s2, (calls1 ++ calls2)%list)
  end.

End UIOverlay.

(* ================================================================== *)
(** * MusicPlayer (src/components/MusicPlayer.tsx) *)

Module MusicPlayer.

(** How the promise of [audio.play()] ends. *)
Inductive PlayOutcome : Type :=
  | PlayStarted
  | PlayRejected (error : string).

Inductive AudioCall : Type :=
  | pause
  | play.

Record Result : Type := mkResult {
  isPlaying : bool;
  audioCalls : list AudioCall;
  console : list ConsoleEntry
}.

(** [toggleMusic]; [hasAudio] is [audioRef.current] being set. *)
Definition toggleMusic (hasAudio : bool) (playing : bool) (outcome : PlayOutcome)
  : Result :=
  if negb hasAudio then
    {| isPlaying := playing; audioCalls := []; console := [] |}
  else if playing then
    {| isPlaying := negb playing; audioCalls := [pause]; console := [] |}
  else
    {| isPlaying := negb playing;
       audioCalls := [play];
       console :=
         match outcome with
         | PlayStarted => []
         | PlayRejected error => [console_error "Failed to play music:" error]
         end |}.

(** ** The life of the audio element *)

(** The [HTMLAudioElement] of [audioRef.current], as far as the component
    sets or changes it; an element is paused until a [play()] succeeds. *)
Record Audio : Type := mkAudio {
  src : string;
  loop : bool;
  volume : Q;
  paused : bool
}.

(** The component: the [useState] cell and the ref. *)
Record Player : Type := mkPlayer {
  playing : bool;
  audioRef : option Audio
}.

(** The body of the effect: [new Audio(musicSrc)], looping, at half volume. *)
Definition createAudio (musicSrc : string) : Audio :=
  {| src := musicSrc; loop := true; volume := 0.5%Q; paused := true |}.

(** The clean-up of the effect: pause and forget the element. *)
Definition cleanup (p : Player) : Player :=
  {| playing := playing p; audioRef := None |}.

(** What a call of the element does to it. *)
Definition applyCall (outcome : PlayOutcome) (a : Audio) (c : AudioCall) : Audio :=
  match c with
  | pause => {| src := src a; loop := loop a; volume := volume a; paused := true |}
  | play =>
      match outcome with
      | PlayStarted =>
          {| src := src a; loop := loop a; volume := volume a; paused := false |}
      | PlayRejected _ => a
      end
  end.

Inductive PlayerEvent : Type :=
  | SourceChange (musicSrc : string)
  | Click (outcome : PlayOutcome)
  | Unmount.

(** First render with [musicSrc]. *)
Definition mount (musicSrc : string) : Player :=
  {| playing := false; audioRef := Some (createAudio musicSrc) |}.

(** One event of the component: a new [musicSrc] runs the clean-up and the
    effect again, a click runs [toggleMusic], unmounting runs the clean-up. *)
Definition playerStep (p : Player) (e : PlayerEvent) : Player :=
  match e with
  | SourceChange musicSrc =>
      {| playing := playing (cleanup p); audioRef := Some (createAudio musicSrc) |}
  | Click outcome =>
      let r :=
        toggleMusic (match audioRef p with Some _ => true | None => false end)
          (playing p) outcome in
      {| playing := isPlaying r;
         audioRef :=
           option_map (fun a => fold_left (applyCall outcome) (audioCalls r) a)
             (audioRef p) |}
  | Unmount => cleanup p
  end.

Definition playerRun (es : list PlayerEvent) (p : Player) : Player :=
  fold_left playerStep es p.

(** What holds of the player at any time: an element that is sounding has
    the flag set, and every element loops at half volume. *)
Definition playerInvariant (p : Player) : Prop :=
  forall a, audioRef p = Some a ->
    (playing p = false -> paused a = true) /\
    loop a = true /\ volume a = 0.5%Q.

End MusicPlayer.

(* ================================================================== *)
(** * Polaroids (src/components/Polaroids.tsx) *)

Module Polaroids.

Definition PHOTO_COUNT : nat := 22.

Inductive DisplayMode : Type :=
  | random
  | sequential.

(** [PolaroidsProps]; [photoLabels] is optional. *)
Record PolaroidsProps : Type := mkProps {
  mode : TreeMode;
  uploadedPhotos : list string;
  photoDisplayMode : DisplayMode;
  photoLabels : option (list string)
}.

(** [interface PhotoData]. *)
Record PhotoData : Type := mkPhotoData {
  id : nat;
  url : string;
  chaosPos : Vector3;
  targetPos : Vector3;
  pinchPos : Vector3;
  speed : R;
  isSelected : bool;
  label : string
}.

(** ** PolaroidItem *)

Section Item.

(** A loaded [THREE.Texture]; what it holds is the library's business. *)
Variable Texture : Type.
Variable withSRGBColorSpace : Texture -> Texture.

(** The two [useState] cells of an item. *)
Record ItemState : Type := mkItemState {
  texture : option Texture;
  error : bool
}.

Definition itemInitial : ItemState := {| texture := None; error := false |}.

(** How [loader.load(data.url, onLoad, undefined, onError)] ends. *)
Inductive LoadOutcome : Type :=
  | Loaded (loadedTex : Texture)
  | LoadFailed (err : string).

(** The two callbacks given to [loader.load]: the new state and what is
    printed. *)
Definition loadTexture (data : PhotoData) (outcome : LoadOutcome) (s : ItemState)
  : ItemState * list ConsoleEntry :=
  match outcome with
  | Loaded loadedTex =>
      ({| texture := Some (withSRGBColorSpace loadedTex); error := false |}, [])
  | LoadFailed err =>
      ({| texture := texture s; error := true |},
       [console_warn ("Failed to load image: " ++ url data) err])
  end.

Inductive Material : Type :=
  | meshBasicMaterial (map : Texture)
  | meshStandardMaterial (color : string).

(** The material of the photo area. *)
Definition fallbackMaterial (s : ItemState) : Material :=
  meshStandardMaterial (if error s then "#550000" else "#cccccc").

Definition photoMaterial (s : ItemState) : Material :=
  match texture s with
  | Some tex => if negb (error s) then meshBasicMaterial tex else fallbackMaterial s
  | None => fallbackMaterial s
  end.

(** The text of the label. *)
Definition labelText (s : ItemState) (photoLabel : string) : string :=
  if error s then "Image not found" else photoLabel.

(** The item through a sequence of loads of [data.url], oldest first. *)
Definition loadTextures (data : PhotoData) (outcomes : list LoadOutcome)
  (s : ItemState) : ItemState :=
  fold_left (fun st o => fst (loadTexture data o st)) outcomes s.

End Item.

Section ItemFrame.
Local Open Scope R_scope.

(** Step 1 of the item's [useFrame] callback, the choice of [targetPos]. *)
Definition frameTarget (mode : TreeMode) (data : PhotoData) : Vector3 :=
  let isFormed := TreeMode_eqb mode FORMED in
  let isPinch := TreeMode_eqb mode PINCH in
  if isPinch && isSelected data then pinchPos data
  else if isFormed then targetPos data
  else chaosPos data.

(** [Vector3.lerp(v, alpha)]. *)
Definition Vector3_lerp (p v : Vector3) (alpha : R) : Vector3 :=
  {| vx := vx p + (vx v - vx p) * alpha;
     vy := vy p + (vy v - vy p) * alpha;
     vz := vz p + (vz v - vz p) * alpha |}.

(** The position after [groupRef.current.position.lerp(targetPos, step)]. *)
Definition framePosition (mode : TreeMode) (data : PhotoData) (delta : R)
  (position : Vector3) : Vector3 :=
  let step := delta * speed data * 2.0 in
  Vector3_lerp position (frameTarget mode data) step.

End ItemFrame.

(** ** Polaroids: the pinch selection *)

(** The two [useState] cells of the component. *)
Record State : Type := mkState {
  selectedPhotoIndex : option Z;
  sequentialIndex : Z
}.

Definition initial : State :=
  {| selectedPhotoIndex := None; sequentialIndex := 0 |}.

(** [Math.floor(Math.random() * n)] for the draw [r]. *)
Definition randomIndex (r : Q) (n : Z) : Z := Qfloor (r * inject_Z n).

(** One run of the effect [useEffect(() => {...}, [mode, ...])]; [r] is the
    result of [Math.random()] should the effect call it.  JavaScript's [%]
    is the remainder that takes the sign of the dividend, [Z.rem]. *)
Definition selectEffect (p : PolaroidsProps) (r : Q) (s : State) : State :=
  let n := Z.of_nat (List.length (uploadedPhotos p)) in
  if TreeMode_eqb (mode p) PINCH && (0 <? n)%Z then
    match selectedPhotoIndex s with
    | None =>
        match photoDisplayMode p with
        | random =>
            {| selectedPhotoIndex := Some (randomIndex r n);
               sequentialIndex := sequentialIndex s |}
        | sequential =>
            {| selectedPhotoIndex := Some (sequentialIndex s);
               sequentialIndex := Z.rem (sequentialIndex s + 1) n |}
        end
    | Some _ => s
    end
  else
    {| selectedPhotoIndex := None; sequentialIndex := sequentialIndex s |}.

(** A render with new props, followed by its effect.  The state changes
    that the effect makes bring a further render and a further run of the
    effect, which changes nothing ([selectEffect_settled] below). *)
Definition render (s : State) (pr : PolaroidsProps * Q) : State :=
  selectEffect (fst pr) (snd pr) s.

(** The component through a sequence of props, each with the draw its
    effect may use. *)
Definition renders (history : list (PolaroidsProps * Q)) (s : State) : State :=
  fold_left render history s.

(** ** Polaroids: the photo data *)

Section PhotoDataGeneration.
Local Open Scope R_scope.

(** [photoLabels && photoLabels[i] ? photoLabels[i] : "Happy Memories"]. *)
Definition labelFor (photoLabels : option (list string)) (i : nat) : string :=
  match photoLabels with
  | Some labels =>
      match nth_error labels i with
      | Some l => if UIOverlay.truthy l then l else "Happy Memories"%string
      | None => "Happy Memories"%string
      end
  | None => "Happy Memories"%string
  end.

(** [i === selectedPhotoIndex]. *)
Definition isSelectedIndex (i : nat) (selected : option Z) : bool :=
  match selected with
  | Some k => (Z.of_nat i =? k)%Z
  | None => false
  end.

(** The array under construction and the number of [Math.random()] calls
    made so far. *)
Record Builder : Type := mkBuilder {
  data : list PhotoData;
  calls : nat
}.

(** One iteration of the loop of [photoData]. *)
Definition pushPhoto (uploadedPhotos : list string)
  (photoLabels : option (list string)) (selected : option Z)
  (rand : RandomStream) (b : Builder) (i : nat) : Builder :=
  let count := INR (List.length uploadedPhotos) in
  let height := 9 in
  let maxRadius := 5.0 in
  let yNorm := 0.2 + (INR i / count) * 0.6 in
  let y := yNorm * height in
  let r := maxRadius * (1 - yNorm) + 0.8 in
  let theta := INR i * 2.39996 in
  let targetPos := mkVector3 (r * cos theta) y (r * sin theta) in
  let relativeY := 5 in
  let relativeZ := 20 in
  let angle := (INR i / count) * PI * 2 in
  let distance := 3 + Q2R (rand (calls b)) * 4 in
  let heightSpread := (Q2R (rand (calls b + 1)%nat) - 0.5) * 8 in
  let chaosPos :=
    mkVector3 (distance * cos angle * 1.2)
              (relativeY + heightSpread)
              (relativeZ - 4 + distance * sin angle * 0.5) in
  {| data :=
       data b ++
       [ {| id := i;
            url := nth i uploadedPhotos EmptyString;
            chaosPos := chaosPos;
            targetPos := targetPos;
            pinchPos := mkVector3 0 8 8;
            speed := 0.8 + Q2R (rand (calls b + 2)%nat) * 1.5;
            isSelected := isSelectedIndex i selected;
            label := labelFor photoLabels i |} ];
     calls := (calls b + 3)%nat |}.

(** The body of [useMemo(() => {...}, [uploadedPhotos, selectedPhotoIndex])].
    React runs it again when [uploadedPhotos] or [selectedPhotoIndex]
    changes, so [id], [url] and [isSelected] of every render are those
    computed from the current values. *)
Definition photoData (uploadedPhotos : list string)
  (photoLabels : option (list string)) (selected : option Z)
  (rand : RandomStream) : list PhotoData :=
  if Nat.eqb (List.length uploadedPhotos) 0 then []
  else
    data (fold_left (pushPhoto uploadedPhotos photoLabels selected rand)
            (seq 0 (List.length uploadedPhotos))
            {| data := []; calls := 0 |}).

(** The props of one [<PolaroidItem>]. *)
Record ItemProps : Type := mkItemProps {
  item_key : nat;
  item_index : nat;
  item_data : PhotoData;
  item_mode : TreeMode;
  item_photoLabel : string
}.

(** [photoData.map((data, i) => <PolaroidItem ... />)]. *)
Fixpoint mapItems (mode : TreeMode) (i : nat) (ds : list PhotoData)
  : list ItemProps :=
  match ds with
  | [] => []
  | d :: rest =>
      {| item_key := i; item_index := i; item_data := d; item_mode := mode;
         item_photoLabel := label d |} :: mapItems mode (S i) rest
  end.

(** What the component returns in a render that computes the photo data:
    the first render, and every render in which [uploadedPhotos] or
    [selectedPhotoIndex] is not what it was in the render before.  In the
    other renders [useMemo] hands back the earlier photo data; see
    [renderComponent] below. *)
Definition items (p : PolaroidsProps) (s : State) (rand : RandomStream)
  : list ItemProps :=
  mapItems (mode p) 0
    (photoData (uploadedPhotos p) (photoLabels p) (selectedPhotoIndex s) rand).

(** The movement targets of all the photos in a frame after such a render. *)
Definition frameTargets (p : PolaroidsProps) (s : State) (rand : RandomStream)
  : list Vector3 :=
  List.map (fun it => frameTarget (item_mode it) (item_data it)) (items p s rand).

(** ** Polaroids: the memo of the photo data *)

(** What [useMemo] keeps between renders: the dependencies of the last
    computation and its result.  React compares a dependency with
    [Object.is], an array by its identity: [dep_uploadedPhotos] is the
    identity of the array that was [uploadedPhotos] then. *)
Record MemoCell : Type := mkMemoCell {
  dep_uploadedPhotos : nat;
  dep_selectedPhotoIndex : option Z;
  memo_value : list PhotoData
}.

(** [Object.is] on two values of [selectedPhotoIndex]. *)
Definition sameSelected (a b : option Z) : bool :=
  match a, b with
  | Some x, Some y => (x =? y)%Z
  | None, None => true
  | _, _ => false
  end.

(** One render: the props, the identity of the array [uploadedPhotos] (the
    same identity in two renders means the same array), the draws of
    [Math.random()] for the photo data should it be computed, and the draw
    for the effect. *)
Record Render : Type := mkRender {
  render_props : PolaroidsProps;
  photosId : nat;
  render_draws : RandomStream;
  effect_draw : Q
}.

(** [useMemo(() => {...}, [uploadedPhotos, selectedPhotoIndex])]: the earlier
    result when both dependencies are what they were, a new computation
    otherwise. *)
Definition useMemoPhotoData (cell : option MemoCell) (r : Render) (s : State)
  : MemoCell :=
  let computed :=
    {| dep_uploadedPhotos := photosId r;
       dep_selectedPhotoIndex := selectedPhotoIndex s;
       memo_value :=
         photoData (uploadedPhotos (render_props r)) (photoLabels (render_props r))
           (selectedPhotoIndex s) (render_draws r) |} in
  match cell with
  | Some c =>
      if Nat.eqb (dep_uploadedPhotos c) (photosId r)
         && sameSelected (dep_selectedPhotoIndex c) (selectedPhotoIndex s)
      then c
      else computed
  | None => computed
  end.

(** The component between renders: its state, its memo, and the items of
    its last render. *)
Record Component : Type := mkComponent {
  comp_state : State;
  comp_memo : option MemoCell;
  comp_shown : list ItemProps
}.

Definition unmounted : Component :=
  {| comp_state := initial; comp_memo := None; comp_shown := [] |}.

(** A render followed by its effect.  When the effect changes the state,
    React renders again with the same props: that is a further [Render]. *)
Definition renderComponent (c : Component) (r : Render) : Component :=
  let m := useMemoPhotoData (comp_memo c) r (comp_state c) in
  {| comp_state := selectEffect (render_props r) (effect_draw r) (comp_state c);
     comp_memo := Some m;
     comp_shown := mapItems (mode (render_props r)) 0 (memo_value m) |}.

Definition renderAll (rs : list Render) (c : Component) : Component :=
  fold_left renderComponent rs c.

(** The memo cell was computed from the photo list [photos]. *)
Definition computedFrom (photos : list string) (c : MemoCell) : Prop :=
  exists labels rand,
    memo_value c = photoData photos labels (dep_selectedPhotoIndex c) rand.

(** The entry that iteration [i] pushes when [k] calls of [Math.random()]
    have been made before it. *)
Definition photoAt (uploadedPhotos : list string)
  (photoLabels : option (list string)) (selected : option Z)
  (rand : RandomStream) (k i : nat) : PhotoData :=
  let count := INR (List.length uploadedPhotos) in
  let yNorm := 0.2 + (INR i / count) * 0.6 in
  let r := 5.0 * (1 - yNorm) + 0.8 in
  let theta := INR i * 2.39996 in
  let angle := (INR i / count) * PI * 2 in
  let distance := 3 + Q2R (rand k) * 4 in
  let heightSpread := (Q2R (rand (k + 1)%nat) - 0.5) * 8 in
  {| id := i;
     url := nth i uploadedPhotos EmptyString;
     chaosPos :=
       mkVector3 (distance * cos angle * 1.2)
                 (5 + heightSpread)
                 (20 - 4 + distance * sin angle * 0.5);
     targetPos := mkVector3 (r * cos theta) (yNorm * 9) (r * sin theta);
     pinchPos := mkVector3 0 8 8;
     speed := 0.8 + Q2R (rand (k + 2)%nat) * 1.5;
     isSelected := isSelectedIndex i selected;
     label := labelFor photoLabels i |}.

End PhotoDataGeneration.

End Polaroids.

(* ================================================================== *)
(** * Properties of the trunk *)

Section TrunkEasing.
Local Open Scope Q_scope.
Import TreeTrunk.

Lemma cube_le (x y : Q) : 0 <= x -> x <= y -> x * x * x <= y * y * y.
Proof.
  intros Hx Hxy.
  assert (H1 : x * x <= y * y) by nra.
  assert (H2 : x * x * x <= y * y * x) by nra.
  assert (H3 : y * y * x <= y * y * y) by nra.
  lra.
Qed.

Lemma pow3_cube (x : Q) : pow3 x == x * x * x.
Proof. unfold pow3. simpl. ring. Qed.

Lemma half_mult (x : Q) : x / 2.0 == x * 0.5.
Proof. field. Qed.

Lemma cubicInOut_low (t : Q) : t < 0.5 -> cubicInOut t == 4.0 * t * t * t.
Proof.
  intros H. unfold cubicInOut.
  destruct (Qlt_le_dec t 0.5) as [_ | Hge]; [reflexivity | lra].
Qed.

Lemma cubicInOut_high (t : Q) :
  0.5 <= t -> t <= 1 ->
  cubicInOut t
  == 1 - (-2.0 * t + 2.0) * (-2.0 * t + 2.0) * (-2.0 * t + 2.0) * 0.5.
Proof.
  intros H _. unfold cubicInOut.
  destruct (Qlt_le_dec t 0.5) as [Hlt | _]; [lra |].
  rewrite half_mult, pow3_cube. ring.
Qed.

Lemma cubicInOut_monotone (a b : Q) :
  0 <= a -> a <= b -> b <= 1 -> cubicInOut a <= cubicInOut b.
Proof.
  intros Ha Hab Hb.
  destruct (Qlt_le_dec a 0.5) as [Ha' | Ha'];
    destruct (Qlt_le_dec b 0.5) as [Hb' | Hb'].
  - rewrite (cubicInOut_low a Ha'), (cubicInOut_low b Hb').
    assert (a * a * a <= b * b * b) by (apply cube_le; lra). lra.
  - rewrite (cubicInOut_low a Ha'), (cubicInOut_high b Hb' Hb).
    assert (a * a * a <= 0.5 * 0.5 * 0.5) by (apply cube_le; lra).
    assert ((-2.0 * b + 2.0) * (-2.0 * b + 2.0) * (-2.0 * b + 2.0) <= 1 * 1 * 1)
      by (apply cube_le; lra).
    lra.
  - lra.
  - rewrite (cubicInOut_high a Ha') by lra. rewrite (cubicInOut_high b Hb' Hb).
    assert ((-2.0 * b + 2.0) * (-2.0 * b + 2.0) * (-2.0 * b + 2.0)
            <= (-2.0 * a + 2.0) * (-2.0 * a + 2.0) * (-2.0 * a + 2.0))
      by (apply cube_le; lra).
    lra.
Qed.

(** Whatever the progress uniform is, the shader eases a value of [0, 1]. *)
Lemma localProgress_in_unit (uProgress aRandom : Q) :
  0 <= localProgress uProgress aRandom <= 1.
Proof.
  unfold localProgress, clamp.
  generalize (uProgress * 1.2 - aRandom * 0.2). intros x.
  pose proof (Q.max_spec x 0.0) as Hmax.
  pose proof (Q.min_spec (Qmax x 0.0) 1.0) as Hmin.
  revert Hmax Hmin. generalize (Qmax x 0.0). intros m.
  generalize (Qmin m 1.0). intros n Hmax Hmin.
  destruct Hmax as [[? ?] | [? ?]]; destruct Hmin as [[? ?] | [? ?]]; lra.
Qed.

Example cubicInOut_quarter : cubicInOut 0.25 == 0.0625.
Proof. reflexivity. Qed.

Example cubicInOut_three_quarters : cubicInOut 0.75 == 0.9375.
Proof. reflexivity. Qed.

(** C5.  [cubicInOut], read over the rationals, is an easing curve: it maps
    0 to 0, 1 to 1 and 1/2 to 1/2, its two branches have the same value at
    t = 1/2, and it is non-decreasing on [0, 1]. *)
Theorem cubicInOut_easing (a b : Q) (Ha : 0 <= a) (Hab : a <= b) (Hb : b <= 1) :
  cubicInOut 0 == 0 /\
  cubicInOut 1 == 1 /\
  cubicInOut 0.5 == 0.5 /\
  4.0 * 0.5 * 0.5 * 0.5 == 1.0 - pow3 (-2.0 * 0.5 + 2.0) / 2.0 /\
  cubicInOut a <= cubicInOut b.
Proof.
  repeat split; try reflexivity.
  apply cubicInOut_monotone; assumption.
Qed.

Lemma cubicInOut_easing_witness :
  cubicInOut 0.5 == 0.5 /\ cubicInOut 0.25 <= cubicInOut 0.75.
Proof.
  assert (H0 : 0 <= 0.25) by (vm_compute; discriminate).
  assert (H1 : 0.25 <= 0.75) by (vm_compute; discriminate).
  assert (H2 : 0.75 <= 1) by (vm_compute; discriminate).
  pose proof (cubicInOut_easing 0.25 0.75 H0 H1 H2) as H.
  split; [apply H | apply H].
Defined.

End TrunkEasing.

Section TrunkProgress.
Local Open Scope Q_scope.
Import TreeTrunk.

Lemma lerp_within_unit (x y t : Q) :
  0 <= x <= 1 -> 0 <= y <= 1 -> 0 <= t <= 1 -> 0 <= lerp x y t <= 1.
Proof. unfold lerp. intros Hx Hy Ht. split; nra. Qed.

Lemma progressTarget_unit (m : TreeMode) : 0 <= progressTarget m <= 1.
Proof. destruct m; vm_compute; split; discriminate. Qed.

Lemma useFrame_within_unit (f : Frame) (s : TrunkState) :
  0 <= delta f -> delta f * 3.5 <= 1 ->
  0 <= progressRef s <= 1 -> 0 <= progressRef (useFrame f s) <= 1.
Proof.
  intros Hd0 Hd1 Hs. unfold useFrame.
  destruct (meshRef s); [| exact Hs].
  cbn [progressRef].
  apply lerp_within_unit; [exact Hs | apply progressTarget_unit | lra].
Qed.

Lemma runFrames_within_unit (fs : list Frame) :
  (forall f, In f fs -> 0 <= delta f /\ delta f * 3.5 <= 1) ->
  forall s, 0 <= progressRef s <= 1 ->
  0 <= progressRef (runFrames fs s) <= 1.
Proof.
  induction fs as [| f fs IH]; intros Hfs s Hs.
  - exact Hs.
  - cbn [runFrames fold_left]. apply IH.
    + intros g Hg. apply Hfs. now right.
    + destruct (Hfs f (or_introl eq_refl)) as [H0 H1].
      now apply useFrame_within_unit.
Qed.

(** C4, as the code has it.  On a frame with the points object mounted the
    progress becomes [lerp progress target (delta * 3.5)], where the target
    is 1 exactly when the mode is FORMED and 0 otherwise; from 0 the
    progress stays in [0, 1] as long as every frame has
    0 <= delta and delta * 3.5 <= 1. *)
Theorem progress_lerp_within_unit (fs : list Frame) (mounted : bool)
  (Hfs : forall f, In f fs -> 0 <= delta f /\ delta f * 3.5 <= 1) :
  (forall f s u, meshRef s = Some u ->
     progressRef (useFrame f s)
     = lerp (progressRef s) (progressTarget (frame_mode f)) (delta f * 3.5)) /\
  (forall m, (progressTarget m = 1 <-> m = FORMED) /\
             (progressTarget m = 0 <-> m <> FORMED)) /\
  0 <= progressRef (runFrames fs (initial mounted)) <= 1.
Proof.
  split; [| split].
  - intros f s u Hu. unfold useFrame. rewrite Hu. reflexivity.
  - intros m. destruct m; cbn; repeat split; intros H;
      try discriminate; try reflexivity; try congruence.
  - apply runFrames_within_unit; [exact Hfs |].
    cbn. split; discriminate.
Qed.

Lemma progress_lerp_within_unit_witness :
  0 <= progressRef
         (runFrames [mkFrame FORMED 0.1 0.1; mkFrame CHAOS 0.2 0.1]
            (initial true)) <= 1.
Proof.
  apply (progress_lerp_within_unit
           [mkFrame FORMED 0.1 0.1; mkFrame CHAOS 0.2 0.1] true).
  intros f [Hf | [Hf | []]]; subst f; cbn; split; discriminate.
Defined.

(** C4, as stated, fails: one FORMED frame with delta = 1 takes the
    progress from 0 to 3.5. *)
Lemma progress_leaves_unit_interval :
  0 <= delta (mkFrame FORMED 1 1) /\
  progressRef (runFrames [mkFrame FORMED 1 1] (initial true)) == 3.5 /\
  ~ (0 <= progressRef (runFrames [mkFrame FORMED 1 1] (initial true)) <= 1).
Proof.
  split; [| split].
  - cbn. discriminate.
  - reflexivity.
  - intros [_ H]. vm_compute in H. apply H. reflexivity.
Qed.

End TrunkProgress.

Section Binary32.
Local Open Scope R_scope.
Import TreeTrunk.

Lemma nearestEven_cases (y : R) :
  nearestEven y = Zfloor y \/
  (nearestEven y = (Zfloor y + 1)%Z /\ 1 / 2 <= y - IZR (Zfloor y)).
Proof.
  unfold nearestEven. cbv zeta.
  destruct (Rlt_dec (y - IZR (Zfloor y)) (1 / 2)) as [Hlt | Hge]; [now left |].
  destruct (Rlt_dec (1 / 2) (y - IZR (Zfloor y))) as [Hgt | Hle].
  - right. split; [reflexivity | lra].
  - destruct (Z.even (Zfloor y)); [now left |]. right. split; [reflexivity | lra].
Qed.

Lemma nearestEven_le (y : R) (k : Z) : y <= IZR k -> (nearestEven y <= k)%Z.
Proof.
  intros Hy. pose proof (Zfloor_bound y) as [Hf _].
  assert (Hfk : (Zfloor y <= k)%Z) by (apply le_IZR; lra).
  destruct (nearestEven_cases y) as [-> | [-> Hhalf]]; [exact Hfk |].
  assert (IZR (Zfloor y) < IZR k) by lra.
  apply lt_IZR in H. lia.
Qed.

Lemma nearestEven_nonneg (y : R) : 0 <= y -> (0 <= nearestEven y)%Z.
Proof.
  intros Hy. assert (0 <= Zfloor y)%Z by (apply Zfloor_lub; exact Hy).
  destruct (nearestEven_cases y) as [-> | [-> _]]; lia.
Qed.

Lemma ln2_pos : 0 < ln 2.
Proof. rewrite <- ln_1. apply ln_increasing; lra. Qed.

Lemma binade_le (x : R) (n : nat) : 0 < x -> x < 2 ^ n -> (binade x <= Z.of_nat n)%Z.
Proof.
  intros Hx Hlt. unfold binade.
  assert (Hln : ln x < INR n * ln 2).
  { rewrite <- ln_pow by lra. now apply ln_increasing. }
  pose proof ln2_pos as H2.
  assert (Hq : ln x / ln 2 < INR n).
  { apply Rmult_lt_reg_r with (ln 2); [exact H2 |].
    unfold Rdiv. rewrite Rmult_assoc, Rinv_l by lra. lra. }
  pose proof (Zfloor_bound (ln x / ln 2)) as [Hf _].
  assert (IZR (Zfloor (ln x / ln 2)) < IZR (Z.of_nat n)) by (rewrite <- INR_IZR_INZ; lra).
  apply lt_IZR in H. lia.
Qed.

Lemma ulp32_pos (x : R) : 0 < ulp32 x.
Proof. unfold ulp32. apply powerRZ_lt. lra. Qed.

Lemma two_power (p : Z) : (0 <= p)%Z -> powerRZ 2 p = IZR (2 ^ p).
Proof.
  intros Hp. rewrite <- (Z2Nat.id p Hp).
  rewrite <- pow_powerRZ. apply (pow_IZR 2).
Qed.

Lemma ulp32_divides (x : R) (m : Z) :
  (binade x <= 24)%Z ->
  exists k : Z, IZR k * ulp32 x = IZR m /\ IZR m / ulp32 x = IZR k.
Proof.
  intros He. unfold ulp32.
  set (p := (24 - Z.max (binade x) (-125))%Z).
  assert (Hp : (0 <= p)%Z) by (unfold p; lia).
  replace (Z.max (binade x) (-125) - 24)%Z with (- p)%Z by (unfold p; lia).
  assert (Hu : powerRZ 2 (- p) = / IZR (2 ^ p)).
  { rewrite powerRZ_neg'. now rewrite two_power. }
  assert (Hpos : 0 < IZR (2 ^ p)) by (apply IZR_lt; now apply Z.pow_pos_nonneg).
  exists (m * 2 ^ p)%Z. rewrite Hu, mult_IZR. split; field; lra.
Qed.

Lemma froundPos_le (x : R) (m : Z) :
  0 < x -> x <= IZR m -> (m < 2 ^ 24)%Z -> 0 <= froundPos x <= IZR m.
Proof.
  intros Hx Hxm Hm.
  assert (He : (binade x <= 24)%Z).
  { apply (binade_le x 24 Hx).
    apply Rle_lt_trans with (IZR m); [exact Hxm |].
    apply Rlt_le_trans with (IZR (2 ^ 24)); [now apply IZR_lt |].
    rewrite pow_IZR. apply IZR_le. apply Z.le_refl. }
  destruct (ulp32_divides x m He) as (k & Hk & Hdiv).
  pose proof (ulp32_pos x) as Hu. unfold froundPos.
  assert (Hy : x / ulp32 x <= IZR k).
  { rewrite <- Hdiv. unfold Rdiv. apply Rmult_le_compat_r; [| exact Hxm].
    left. now apply Rinv_0_lt_compat. }
  assert (Hy0 : 0 <= x / ulp32 x).
  { unfold Rdiv. apply Rmult_le_pos; [lra | left; now apply Rinv_0_lt_compat]. }
  pose proof (nearestEven_le _ _ Hy) as Hn.
  pose proof (nearestEven_nonneg _ Hy0) as Hn0.
  apply IZR_le in Hn. apply IZR_le in Hn0. split; [nra |].
  rewrite <- Hk. nra.
Qed.

Lemma fround_between (x : R) (a b : Z) :
  (0 <= a < 2 ^ 24)%Z -> (0 <= b < 2 ^ 24)%Z ->
  - IZR a <= x <= IZR b -> - IZR a <= fround x <= IZR b.
Proof.
  intros Ha Hb [Hxa Hxb]. unfold fround.
  assert (Ha0 : 0 <= IZR a) by (apply IZR_le; lia).
  assert (Hb0 : 0 <= IZR b) by (apply IZR_le; lia).
  destruct (Rlt_dec 0 x) as [Hpos | Hnpos].
  - destruct (froundPos_le x b Hpos Hxb) as [H0 H1]; [lia |]. lra.
  - destruct (Rlt_dec x 0) as [Hneg | Hnneg]; [| lra].
    destruct (froundPos_le (- x) a) as [H0 H1]; [lra | lra | lia |]. lra.
Qed.

(** The draw 1 - 2^-26 is stored as 1. *)
Lemma fround_near_one : fround (Q2R (67108863 # 67108864)) = 1.
Proof.
  set (x := Q2R (67108863 # 67108864)).
  assert (Hx : x = 67108863 / 67108864) by (unfold x, Q2R; cbn; reflexivity).
  assert (Hlo : / 2 < x) by lra. assert (Hhi : x < 1) by lra.
  pose proof ln2_pos as H2.
  assert (He : binade x = 0%Z).
  { unfold binade. rewrite (Zfloor_eq (-1)); [reflexivity |].
    assert (ln x < 0) by (rewrite <- ln_1; apply ln_increasing; lra).
    assert (- ln 2 < ln x).
    { rewrite <- ln_Rinv by lra. apply ln_increasing; lra. }
    split.
    - apply Rmult_le_reg_r with (ln 2); [exact H2 |].
      unfold Rdiv. rewrite Rmult_assoc, Rinv_l by lra. lra.
    - apply Rmult_lt_reg_r with (ln 2); [exact H2 |].
      unfold Rdiv. rewrite Rmult_assoc, Rinv_l by lra. lra. }
  assert (Hu : ulp32 x = / 16777216).
  { unfold ulp32. rewrite He.
    change (Z.max 0 (-125) - 24)%Z with (- (24))%Z.
    rewrite (powerRZ_neg' 2 24), two_power by lia. reflexivity. }
  unfold fround. destruct (Rlt_dec 0 x) as [_ | Hn]; [| lra].
  unfold froundPos. rewrite Hu.
  assert (Hf : Zfloor (x / / 16777216) = 16777215%Z).
  { apply Zfloor_eq. rewrite Hx. split; lra. }
  assert (Hn : nearestEven (x / / 16777216) = 16777216%Z).
  { unfold nearestEven. cbv zeta. rewrite Hf.
    destruct (Rlt_dec _ _) as [Hlt | _]; [rewrite Hx in Hlt; lra |].
    destruct (Rlt_dec _ _) as [_ | Hnle]; [reflexivity | rewrite Hx in Hnle; lra]. }
  rewrite Hn. lra.
Qed.

End Binary32.

Section TrunkAttributes.
Local Open Scope R_scope.
Import TreeTrunk.

Lemma write_length (i : nat) (v : R) (a : list R) :
  List.length (write i v a) = List.length a.
Proof.
  revert i. induction a as [| h t IH]; intros [| j]; cbn; auto.
Qed.

Lemma nth_write_same (i : nat) (v d : R) (a : list R) :
  (i < List.length a)%nat -> nth i (write i v a) d = fround v.
Proof.
  revert i. induction a as [| h t IH]; intros [| j] Hi; cbn in *; try lia.
  - reflexivity.
  - apply IH. lia.
Qed.

Lemma nth_write_other (i j : nat) (v d : R) (a : list R) :
  i <> j -> nth i (write j v a) d = nth i a d.
Proof.
  revert i j. induction a as [| h t IH]; intros [| i] [| j] Hij; cbn;
    try reflexivity; try congruence.
  apply IH. congruence.
Qed.

Lemma draw_in_unit (rand : RandomStream) (k : nat) :
  unit_draws rand -> 0 <= Q2R (rand k) < 1.
Proof.
  intros H. destruct (H k) as [H0 H1].
  apply Qle_Rle in H0. apply Qlt_Rlt in H1.
  rewrite RMicromega.Q2R_0 in H0. rewrite RMicromega.Q2R_1 in H1.
  split; assumption.
Qed.

Lemma cbrt_in_unit (x : R) : 0 <= x < 1 -> 0 <= cbrt x < 1.
Proof.
  intros [H0 H1]. unfold cbrt.
  destruct (Rlt_dec 0 x) as [Hpos | Hnpos].
  - unfold Rpower. split.
    + left. apply exp_pos.
    + rewrite <- exp_0. apply exp_increasing.
      assert (Hln : ln x < 0) by (rewrite <- ln_1; now apply ln_increasing).
      lra.
  - destruct (Rlt_dec x 0); lra.
Qed.

(** A point [r * (sin phi cos theta, sin phi sin theta, cos phi)] lies at
    distance [r] from the origin. *)
Lemma spherical_norm (r phi theta : R) :
  (r * sin phi * cos theta) * (r * sin phi * cos theta)
  + (r * sin phi * sin theta) * (r * sin phi * sin theta)
  + (r * cos phi) * (r * cos phi) = r * r.
Proof.
  pose proof (sin2_cos2 phi) as Hp. pose proof (sin2_cos2 theta) as Ht.
  unfold Rsqr in Hp, Ht.
  replace ((r * sin phi * cos theta) * (r * sin phi * cos theta)
           + (r * sin phi * sin theta) * (r * sin phi * sin theta)
           + (r * cos phi) * (r * cos phi))
    with (r * r * (sin phi * sin phi * (sin theta * sin theta + cos theta * cos theta)
                   + cos phi * cos phi)) by ring.
  rewrite Ht. replace (sin phi * sin phi * 1 + cos phi * cos phi)
    with (sin phi * sin phi + cos phi * cos phi) by ring.
  rewrite Hp. ring.
Qed.

Lemma polar_norm (radius angle : R) :
  (cos angle * radius) * (cos angle * radius)
  + (sin angle * radius) * (sin angle * radius) = radius * radius.
Proof.
  pose proof (sin2_cos2 angle) as Ha. unfold Rsqr in Ha.
  replace ((cos angle * radius) * (cos angle * radius)
           + (sin angle * radius) * (sin angle * radius))
    with (radius * radius * (sin angle * sin angle + cos angle * cos angle))
    by ring.
  rewrite Ha. ring.
Qed.

(** The values computed for a particle lie within the intended bounds. *)
Lemma particleAt_in_bounds (rand : RandomStream) (k : nat) :
  unit_draws rand ->
  inTrunkCylinder (targetPosition (particleAt rand k)) /\
  inChaosBall (chaosPosition (particleAt rand k)) /\
  0 <= seed (particleAt rand k) < 1.
Proof.
  intros Hrand.
  unfold inTrunkCylinder, inChaosBall, particleAt.
  cbn [targetPosition chaosPosition seed vx vy vz].
  pose proof (draw_in_unit rand k Hrand) as D0.
  pose proof (draw_in_unit rand (k + 3) Hrand) as D3.
  pose proof (draw_in_unit rand (k + 5) Hrand) as D5.
  pose proof (draw_in_unit rand (k + 6) Hrand) as D6.
  pose proof (cbrt_in_unit _ D0) as Hcb.
  unfold trunkRadius, trunkHeight, trunkBottomY.
  repeat split; try lra.
  - rewrite polar_norm. nra.
  - replace (25 * cbrt (Q2R (rand k)) * sin (acos (2 * Q2R (rand (k + 2)%nat) - 1))
             * sin (Q2R (rand (k + 1)%nat) * 2 * PI) + 5 - 5)
      with (25 * cbrt (Q2R (rand k)) * sin (acos (2 * Q2R (rand (k + 2)%nat) - 1))
            * sin (Q2R (rand (k + 1)%nat) * 2 * PI)) by ring.
    rewrite spherical_norm. nra.
Qed.

Lemma square_bound (u B : R) : 0 <= B -> u * u <= B * B -> - B <= u <= B.
Proof. intros HB Hu. split; nra. Qed.

(** What rounding leaves of the bounds: each stored coordinate stays in
    the interval that the bounds give it. *)
Lemma rounded_in_boxes (t c : Vector3) (sd : R) :
  inTrunkCylinder t -> inChaosBall c -> 0 <= sd < 1 ->
  (-1 <= fround (vx t) <= 1 /\ -2 <= fround (vy t) <= 0 /\
   -1 <= fround (vz t) <= 1) /\
  (-25 <= fround (vx c) <= 25 /\ -20 <= fround (vy c) <= 30 /\
   -25 <= fround (vz c) <= 25) /\
  0 <= fround sd <= 1.
Proof.
  unfold inTrunkCylinder, inChaosBall. intros [Ht Hty] Hc Hs.
  assert (Hz : forall a b n : Z, (0 <= n)%Z -> (n <= 30)%Z ->
            (0 <= n < 2 ^ 24)%Z)
    by (intros _ _ n H0 H30; split;
        [exact H0 | apply Z.le_lt_trans with 30%Z; [exact H30 | reflexivity]]).
  assert (Hb : forall (x : R) (a b : Z),
            (0 <= a <= 30)%Z -> (0 <= b <= 30)%Z ->
            - IZR a <= x <= IZR b -> - IZR a <= fround x <= IZR b).
  { intros x a b [Ha0 Ha] [Hb0 Hb] Hx.
    apply fround_between; [apply (Hz a b) | apply (Hz a b) |]; assumption. }
  pose proof (Rle_0_sqr (vx t)) as Sxt. pose proof (Rle_0_sqr (vz t)) as Szt.
  pose proof (Rle_0_sqr (vx c)) as Sxc. pose proof (Rle_0_sqr (vy c - 5)) as Syc.
  pose proof (Rle_0_sqr (vz c)) as Szc. unfold Rsqr in *.
  assert (Htx : -1 <= vx t <= 1) by (apply (square_bound _ 1); lra).
  assert (Htz : -1 <= vz t <= 1) by (apply (square_bound _ 1); lra).
  assert (Hcx : -25 <= vx c <= 25) by (apply (square_bound _ 25); lra).
  assert (Hcy5 : -25 <= vy c - 5 <= 25) by (apply (square_bound _ 25); lra).
  assert (Hcy : -20 <= vy c <= 30) by lra.
  assert (Hcz : -25 <= vz c <= 25) by (apply (square_bound _ 25); lra).
  assert (Ftx : - IZR 1 <= fround (vx t) <= IZR 1)
    by (apply Hb; [lia | lia | lra]).
  assert (Fty : - IZR 2 <= fround (vy t) <= IZR 0)
    by (apply Hb; [lia | lia | lra]).
  assert (Ftz : - IZR 1 <= fround (vz t) <= IZR 1)
    by (apply Hb; [lia | lia | lra]).
  assert (Fcx : - IZR 25 <= fround (vx c) <= IZR 25)
    by (apply Hb; [lia | lia | lra]).
  assert (Fcy : - IZR 20 <= fround (vy c) <= IZR 30)
    by (apply Hb; [lia | lia | lra]).
  assert (Fcz : - IZR 25 <= fround (vz c) <= IZR 25)
    by (apply Hb; [lia | lia | lra]).
  assert (Fsd : - IZR 0 <= fround sd <= IZR 1)
    by (apply Hb; [lia | lia | lra]).
  repeat split; lra.
Qed.

Lemma fillParticle_sized (rand : RandomStream) (count i : nat) (b : Buffers) :
  sized count b -> sized count (fillParticle rand b i).
Proof.
  intros (Hc & Ht & Hr). unfold sized, fillParticle. cbn.
  rewrite !write_length. auto.
Qed.

Lemma fillParticle_sets (rand : RandomStream) (count i : nat) (b : Buffers) :
  sized count b -> (i < count)%nat ->
  holdsParticle (fillParticle rand b i) i (particleAt rand (TreeTrunk.calls b)).
Proof.
  intros (Hc & Ht & Hr) Hi.
  unfold holdsParticle, vec3At, roundVector3, fillParticle, particleAt.
  cbn [targetPositions chaosPositions randoms targetPosition chaosPosition seed
       vx vy vz].
  repeat first
    [ rewrite nth_write_other by lia
    | rewrite nth_write_same by (rewrite ?write_length; lia) ].
  repeat split.
Qed.

Lemma fillParticle_keeps (rand : RandomStream) (i j : nat) (b : Buffers)
  (p : Particle) :
  i <> j -> holdsParticle b i p -> holdsParticle (fillParticle rand b j) i p.
Proof.
  intros Hij H.
  unfold holdsParticle, vec3At, fillParticle in *.
  cbn [targetPositions chaosPositions randoms vx vy vz] in *.
  rewrite !nth_write_other by lia. exact H.
Qed.

Lemma fill_loop (rand : RandomStream) (count n : nat) (b0 : Buffers) :
  sized count b0 -> TreeTrunk.calls b0 = 0%nat -> (n <= count)%nat ->
  let b := fold_left (fillParticle rand) (seq 0 n) b0 in
  sized count b /\ TreeTrunk.calls b = (7 * n)%nat /\
  forall i, (i < n)%nat -> holdsParticle b i (particleAt rand (7 * i)).
Proof.
  intros Hsz Hcalls. induction n as [| n IH]; intros Hn.
  - cbn. split; [exact Hsz | split; [exact Hcalls | intros i Hi; lia]].
  - cbn zeta. rewrite seq_S, fold_left_app. cbn [fold_left Nat.add].
    destruct IH as (IHs & IHc & IHb); [lia |].
    split; [now apply fillParticle_sized | split].
    + cbn [fillParticle TreeTrunk.calls]. lia.
    + intros i Hi. destruct (Nat.eq_dec i n) as [-> | Hne].
      * rewrite <- IHc. apply fillParticle_sets with (count := count); auto; lia.
      * apply fillParticle_keeps; [exact Hne | apply IHb; lia].
Qed.

Lemma particleAttributes_holds (count i : nat) (rand : RandomStream) :
  (i < count)%nat ->
  holdsParticle (particleAttributes count rand) i (particleAt rand (7 * i)).
Proof.
  intros Hi. unfold particleAttributes.
  refine (proj2 (proj2 (fill_loop rand count count _ _ _ _)) i Hi).
  - unfold sized, Float32Array. cbn. rewrite !repeat_length. auto.
  - reflexivity.
  - lia.
Qed.

(** C6, as the code has it.  With every draw of [Math.random()] in [0, 1)
    and the arithmetic before the store read over the reals, the values
    computed for particle [i < count] lie within the intended bounds: the
    target position in the trunk cylinder (x^2 + z^2 <= 1, -2 <= y <= 0),
    the chaos position in the ball of radius 25 around (0, 5, 0), the seed
    in [0, 1).  The arrays hold these values rounded to binary32, so that
    the stored seed lies in [0, 1], the stored target position has x and z
    in [-1, 1] and y in [-2, 0], and the stored chaos position has x and z
    in [-25, 25] and y in [-20, 30]. *)
Theorem particle_attributes_in_bounds (count i : nat) (rand : RandomStream)
  (Hrand : unit_draws rand) (Hi : (i < count)%nat) :
  let b := particleAttributes count rand in
  let computed := particleAt rand (7 * i) in
  let t := targetPosition computed in
  let c := chaosPosition computed in
  let stored_t := vec3At (targetPositions b) i in
  let stored_c := vec3At (chaosPositions b) i in
  let stored_seed := nth i (randoms b) 0 in
  ((vx t * vx t + vz t * vz t <= 1 /\ -2 <= vy t <= 0) /\
   vx c * vx c + (vy c - 5) * (vy c - 5) + vz c * vz c <= 25 * 25 /\
   0 <= seed computed < 1) /\
  (stored_t = roundVector3 t /\ stored_c = roundVector3 c /\
   stored_seed = fround (seed computed)) /\
  ((-1 <= vx stored_t <= 1 /\ -2 <= vy stored_t <= 0 /\
    -1 <= vz stored_t <= 1) /\
   (-25 <= vx stored_c <= 25 /\ -20 <= vy stored_c <= 30 /\
    -25 <= vz stored_c <= 25) /\
   0 <= stored_seed <= 1).
Proof.
  cbn zeta.
  pose proof (particleAt_in_bounds rand (7 * i) Hrand) as Hexact.
  pose proof (particleAttributes_holds count i rand Hi) as Hheld.
  destruct Hexact as (Ht & Hc & Hs).
  split; [exact (conj Ht (conj Hc Hs)) |].
  split; [exact Hheld |].
  destruct Hheld as (-> & -> & ->).
  exact (rounded_in_boxes _ _ _ Ht Hc Hs).
Qed.

Lemma particle_attributes_in_bounds_witness :
  let b := particleAttributes 2 (fun _ => 0.5%Q) in
  0 <= nth 1 (randoms b) 0 <= 1.
Proof.
  assert (Hrand : unit_draws (fun _ => 0.5%Q))
    by (intros k; split; vm_compute; [discriminate | reflexivity]).
  assert (Hi : (1 < 2)%nat) by lia.
  exact (proj2 (proj2 (proj2 (proj2
           (particle_attributes_in_bounds 2 1 (fun _ => 0.5%Q) Hrand Hi))))).
Defined.

(** C6, as stated, fails: [Math.random()] may return 1 - 2^-26, a draw in
    [0, 1), and the store into the [Float32Array] of the seeds rounds it
    to 1. *)
Lemma seed_stored_as_one :
  unit_draws (fun _ => (67108863 # 67108864)%Q) /\
  nth 0 (randoms (particleAttributes 1 (fun _ => (67108863 # 67108864)%Q))) 0 = 1 /\
  ~ (0 <= nth 0 (randoms (particleAttributes 1 (fun _ => (67108863 # 67108864)%Q))) 0
     < 1).
Proof.
  assert (Hone :
    nth 0 (randoms (particleAttributes 1 (fun _ => (67108863 # 67108864)%Q))) 0 = 1).
  { destruct (particleAttributes_holds 1 0 (fun _ => (67108863 # 67108864)%Q))
      as (_ & _ & ->); [lia |].
    cbn [particleAt seed]. apply fround_near_one. }
  split; [| split; [exact Hone |]].
  - intros k. split; vm_compute; [discriminate | reflexivity].
  - rewrite Hone. lra.
Qed.

End TrunkAttributes.

(* ================================================================== *)
(** * Properties of the hand-tracking camera callback *)

Section CameraIdle.
Local Open Scope R_scope.
Import Experience.

Variable Internals : Type.
Variables getAzimuthalAngle getPolarAngle getDistance : Controls Internals -> R.
Variable update : Controls Internals -> Controls Internals.

(** C7.  A frame in which no hand is detected, or in which the hand is at
    distance at most 0.005 from its previous position, leaves the state of
    the callback as it is: the camera position, the target of the controls
    and the stored previous hand position. *)
Theorem useFrame_idle (hand : HandPosition) (delta : R) (s : State Internals)
  (Hidle : detected hand = false \/
           hypot (hand_x hand - fst (prevHandPos _ s))
                 (hand_y hand - snd (prevHandPos _ s)) <= MOVEMENT_THRESHOLD) :
  let s' :=
    useFrame Internals getAzimuthalAngle getPolarAngle getDistance update
      hand delta s in
  s' = s /\
  option_map (object_position Internals) (controlsRef _ s')
  = option_map (object_position Internals) (controlsRef _ s) /\
  option_map (target Internals) (controlsRef _ s')
  = option_map (target Internals) (controlsRef _ s) /\
  prevHandPos _ s' = prevHandPos _ s.
Proof.
  cbv zeta.
  assert (Heq : useFrame Internals getAzimuthalAngle getPolarAngle getDistance
                  update hand delta s = s).
  { unfold useFrame.
    destruct (controlsRef _ s) as [controls |]; [| reflexivity].
    destruct (detected hand) eqn:Hdet; [| reflexivity].
    destruct Hidle as [Hno | Hnear]; [discriminate |].
    destruct (Rlt_dec MOVEMENT_THRESHOLD _) as [Hfar | _]; [lra | reflexivity]. }
  rewrite Heq. repeat split; reflexivity.
Qed.

(** The other branch: a detected hand that moved further than the threshold
    is recorded as the new previous position. *)
Lemma useFrame_moving (hand : HandPosition) (delta : R) (s : State Internals)
  (controls : Controls Internals) :
  controlsRef _ s = Some controls ->
  detected hand = true ->
  MOVEMENT_THRESHOLD < hypot (hand_x hand - fst (prevHandPos _ s))
                             (hand_y hand - snd (prevHandPos _ s)) ->
  useFrame Internals getAzimuthalAngle getPolarAngle getDistance update
    hand delta s
  = {| controlsRef :=
         Some (moveCamera Internals getAzimuthalAngle getPolarAngle
                 getDistance update hand delta controls);
       prevHandPos := (hand_x hand, hand_y hand) |}.
Proof.
  intros Hc Hdet Hfar. unfold useFrame. rewrite Hc, Hdet.
  destruct (Rlt_dec MOVEMENT_THRESHOLD _) as [_ | Hnear]; [reflexivity | lra].
Qed.

End CameraIdle.

Lemma useFrame_idle_witness :
  let s := Experience.mkState unit
             (Some (Experience.mkControls unit
                      (mkVector3 0 4 20) (mkVector3 0 0 0) tt))
             (0.5, 0.5)%R in
  Experience.useFrame unit (fun _ => 0%R) (fun _ => 1%R) (fun _ => 20%R)
    (fun c => c) (Experience.mkHandPosition 0.9 0.1 false) 0.016%R s = s.
Proof.
  cbv zeta.
  apply (useFrame_idle unit (fun _ => 0%R) (fun _ => 1%R) (fun _ => 20%R)
           (fun c => c) (Experience.mkHandPosition 0.9 0.1 false) 0.016%R).
  left. reflexivity.
Defined.

(* ================================================================== *)
(** * Properties of the upload handler *)

Section Upload.
Import UIOverlay.

Lemma readers_all_loaded (fs : list File) :
  (forall f, In f fs -> String.prefix "image/" (type f) = true ->
     exists u, read f = ReadLoaded u /\ truthy u = true) ->
  Promise_all (readers fs) = Some (imageDataURLs fs).
Proof.
  induction fs as [| f fs IH]; intros Hall.
  - reflexivity.
  - cbn [readers imageDataURLs].
    destruct (String.prefix "image/" (type f)) eqn:Himg; cbn [negb].
    + destruct (Hall f (or_introl eq_refl) Himg) as (u & Hread & Hu).
      cbn [Promise_all]. unfold readAsDataURL. rewrite Hread, Hu.
      rewrite IH by (intros g Hg; apply Hall; now right).
      reflexivity.
    + apply IH. intros g Hg. apply Hall. now right.
Qed.

Lemma imageDataURLs_no_image (fs : list File) :
  (forall f, In f fs -> String.prefix "image/" (type f) = false) ->
  imageDataURLs fs = [].
Proof.
  induction fs as [| f fs IH]; intros Hno; [reflexivity |].
  cbn [imageDataURLs]. rewrite (Hno f (or_introl eq_refl)).
  apply IH. intros g Hg. apply Hno. now right.
Qed.

(** C8, as the code has it.  [onPhotosUpload] is called at most once per
    change event and never when the event carries no files; when every
    selected image file is read with a non-empty result it is called
    exactly once, with the data URLs of the files whose type starts with
    [image/], in the order of the selection (with the empty list when no
    file is an image). *)
Theorem handleFileChange_calls (fs : list File)
  (Hread : forall f, In f fs -> String.prefix "image/" (type f) = true ->
             exists u, read f = ReadLoaded u /\ truthy u = true) :
  (forall files, List.length (handleFileChange files) <= 1) /\
  handleFileChange None = [] /\
  handleFileChange (Some []) = [] /\
  (fs <> [] -> handleFileChange (Some fs) = [imageDataURLs fs]) /\
  (fs <> [] ->
   (forall f, In f fs -> String.prefix "image/" (type f) = false) ->
   handleFileChange (Some fs) = [[]]).
Proof.
  assert (Hcall : fs <> [] -> handleFileChange (Some fs) = [imageDataURLs fs]).
  { intros Hne. unfold handleFileChange.
    destruct fs as [| f rest]; [congruence |].
    now rewrite readers_all_loaded. }
  repeat split; try reflexivity; try exact Hcall.
  - intros [[| f rest] |]; cbn; try lia.
    destruct (Promise_all _); cbn; lia.
  - intros Hne Hno. rewrite Hcall by exact Hne.
    now rewrite imageDataURLs_no_image.
Qed.

Lemma handleFileChange_calls_witness :
  handleFileChange
    (Some [mkFile "image/png" (ReadLoaded "data:image/png;base64,AAAA");
           mkFile "text/plain" (ReadLoaded "data:text/plain;base64,QQ==");
           mkFile "image/jpeg" (ReadLoaded "data:image/jpeg;base64,BBBB")])
  = [["data:image/png;base64,AAAA"; "data:image/jpeg;base64,BBBB"]]%string.
Proof.
  apply (handleFileChange_calls
           [mkFile "image/png" (ReadLoaded "data:image/png;base64,AAAA");
            mkFile "text/plain" (ReadLoaded "data:text/plain;base64,QQ==");
            mkFile "image/jpeg" (ReadLoaded "data:image/jpeg;base64,BBBB")]).
  - intros f [Hf | [Hf | [Hf | []]]] Himg; subst f;
      try discriminate Himg; eexists; split; reflexivity.
  - discriminate.
Defined.

(** C8, as stated, fails: an image file whose read never fires [load]
    leaves [Promise.all] pending, and the callback is not called. *)
Lemma handleFileChange_read_failure :
  [mkFile "image/png" ReadFailed] <> [] /\
  handleFileChange (Some [mkFile "image/png" ReadFailed]) = [] /\
  ~ (exists urls,
       handleFileChange (Some [mkFile "image/png" ReadFailed]) = [urls]).
Proof.
  split; [discriminate | split; [reflexivity |]].
  intros [urls H]. discriminate H.
Qed.

End Upload.

(* ================================================================== *)
(** * Properties of the error handling *)

Section ErrorHandling.
Import Polaroids.

Variable Texture : Type.
Variable withSRGBColorSpace : Texture -> Texture.

(** C1, as the code has it.  A failed texture load turns the item into the
    placeholder (the fallback material of colour #550000 and the label
    'Image not found') and prints one warning.  It is not the only failure
    that the code handles: a rejected [audio.play()] is caught by
    [toggleMusic] and printed with [console.error]. *)
Theorem texture_failure_placeholder (data : PhotoData) (err : string)
  (s : ItemState Texture) (photoLabel : string) :
  let '(s', printed) :=
    loadTexture Texture withSRGBColorSpace data (LoadFailed Texture err) s in
  photoMaterial Texture s' = meshStandardMaterial Texture "#550000" /\
  labelText Texture s' photoLabel = "Image not found"%string /\
  printed = [console_warn ("Failed to load image: " ++ url data) err] /\
  MusicPlayer.console
    (MusicPlayer.toggleMusic true false (MusicPlayer.PlayRejected err))
  = [console_error "Failed to play music:" err].
Proof.
  cbn. repeat split.
  destruct (texture Texture s); reflexivity.
Qed.

End ErrorHandling.

(** C1, as stated, fails: the texture load is not the only operation with
    a branch for its failure.  [toggleMusic] has one too: with an audio
    element that is not playing and a rejected [audio.play()], it prints an
    error; so it is not true that [toggleMusic] prints nothing whatever
    happens. *)
Lemma play_failure_is_handled :
  MusicPlayer.console
    (MusicPlayer.toggleMusic true false (MusicPlayer.PlayRejected "NotAllowedError"))
  = [console_error "Failed to play music:" "NotAllowedError"] /\
  ~ (forall hasAudio playing outcome,
       MusicPlayer.console (MusicPlayer.toggleMusic hasAudio playing outcome) = []).
Proof.
  split; [reflexivity |].
  intros H.
  discriminate (H true false (MusicPlayer.PlayRejected "NotAllowedError")).
Qed.

(* ================================================================== *)
(** * Properties of the photo data *)

Section PhotoData.
Import Polaroids.

Variable uploadedPhotos : list string.
Variable photoLabels : option (list string).
Variable selected : option Z.
Variable rand : RandomStream.

(** What the loop has pushed after [n] iterations. *)
Lemma pushPhoto_loop (n : nat) :
  let b := fold_left (pushPhoto uploadedPhotos photoLabels selected rand)
             (seq 0 n) {| data := []; calls := 0 |} in
  List.length (data b) = n /\
  forall i d, nth_error (data b) i = Some d ->
    id d = i /\
    url d = nth i uploadedPhotos EmptyString /\
    label d = labelFor photoLabels i /\
    isSelected d = isSelectedIndex i selected.
Proof.
  induction n as [| n [IHlen IHnth]]; cbn zeta.
  - cbn. split; [reflexivity |]. intros [| i] d H; discriminate H.
  - rewrite seq_S, fold_left_app. cbn [fold_left Nat.add].
    cbn zeta in IHlen, IHnth.
    set (b := fold_left _ (seq 0 n) _) in *.
    cbn [pushPhoto data]. split.
    + rewrite length_app, IHlen. cbn. lia.
    + intros i d H.
      destruct (Nat.lt_ge_cases i n) as [Hlt | Hge].
      * rewrite nth_error_app1 in H by lia. now apply IHnth.
      * rewrite nth_error_app2 in H by lia. rewrite IHlen in H.
        destruct (i - n)%nat as [| k] eqn:Hk.
        -- assert (i = n) by lia. subst i. cbn in H.
           injection H as <-. cbn. auto.
        -- destruct k; discriminate H.
Qed.

Lemma photoData_length :
  List.length (photoData uploadedPhotos photoLabels selected rand)
  = List.length uploadedPhotos.
Proof.
  unfold photoData.
  destruct (Nat.eqb_spec (List.length uploadedPhotos) 0) as [H0 | Hpos].
  - now rewrite H0.
  - apply (pushPhoto_loop (List.length uploadedPhotos)).
Qed.

Lemma photoData_nth (i : nat) (d : PhotoData) :
  nth_error (photoData uploadedPhotos photoLabels selected rand) i = Some d ->
  id d = i /\
  url d = nth i uploadedPhotos EmptyString /\
  label d = labelFor photoLabels i /\
  isSelected d = isSelectedIndex i selected.
Proof.
  unfold photoData.
  destruct (Nat.eqb (List.length uploadedPhotos) 0).
  - destruct i; discriminate.
  - apply (pushPhoto_loop (List.length uploadedPhotos)).
Qed.

Lemma mapItems_length (m : TreeMode) (k : nat) (ds : list PhotoData) :
  List.length (mapItems m k ds) = List.length ds.
Proof. revert k. induction ds as [| d ds IH]; intros k; cbn; auto. Qed.

Lemma mapItems_nth (m : TreeMode) (k i : nat) (ds : list PhotoData) :
  nth_error (mapItems m k ds) i
  = option_map
      (fun d => {| item_key := k + i; item_index := k + i; item_data := d;
                   item_mode := m; item_photoLabel := label d |})
      (nth_error ds i).
Proof.
  revert k i. induction ds as [| d ds IH]; intros k [| i]; cbn;
    try reflexivity.
  - now rewrite Nat.add_0_r.
  - rewrite IH. now rewrite Nat.add_succ_r.
Qed.

End PhotoData.

Section PhotoItems.
Import Polaroids.

Lemma labelFor_present (labels : list string) (i : nat) (l : string) :
  nth_error labels i = Some l -> l <> EmptyString ->
  labelFor (Some labels) i = l.
Proof.
  intros Hnth Hne. unfold labelFor. rewrite Hnth.
  unfold UIOverlay.truthy.
  destruct (String.eqb_spec l EmptyString) as [He | _]; [contradiction | reflexivity].
Qed.

Lemma labelFor_absent (photoLabels : option (list string)) (i : nat) :
  photoLabels = None \/
  (exists labels, photoLabels = Some labels /\
     (nth_error labels i = None \/ nth_error labels i = Some EmptyString)) ->
  labelFor photoLabels i = "Happy Memories".
Proof.
  intros [-> | (labels & -> & [H | H])]; unfold labelFor; try rewrite H;
    reflexivity.
Qed.

(** In a render that computes the photo data, there is one entry per
    uploaded photo, and so one polaroid item; entry [i] has the url
    [uploadedPhotos[i]] and the label [photoLabels[i]] when [photoLabels]
    is given and holds a non-empty string at [i], and the label
    'Happy Memories' otherwise; no photo gives no item.  The constant
    [PHOTO_COUNT] plays no part. *)
Lemma one_item_per_photo (p : PolaroidsProps) (s : State) (rand : RandomStream)
  (i : nat) (photo : string) (Hphoto : nth_error (uploadedPhotos p) i = Some photo) :
  List.length (photoData (uploadedPhotos p) (photoLabels p) (selectedPhotoIndex s) rand)
  = List.length (uploadedPhotos p) /\
  List.length (items p s rand) = List.length (uploadedPhotos p) /\
  (exists it,
     nth_error (items p s rand) i = Some it /\
     nth_error (photoData (uploadedPhotos p) (photoLabels p)
                  (selectedPhotoIndex s) rand) i = Some (item_data it) /\
     item_key it = i /\
     id (item_data it) = i /\
     url (item_data it) = photo /\
     item_photoLabel it = label (item_data it) /\
     (forall labels l,
        photoLabels p = Some labels -> nth_error labels i = Some l ->
        l <> EmptyString -> label (item_data it) = l) /\
     ((photoLabels p = None \/
       exists labels, photoLabels p = Some labels /\
         (nth_error labels i = None \/ nth_error labels i = Some EmptyString)) ->
      label (item_data it) = "Happy Memories")) /\
  (forall labels sel,
     photoData [] labels sel rand = [] /\
     items (mkProps (mode p) [] (photoDisplayMode p) labels) s rand = []).
Proof.
  pose proof (photoData_length (uploadedPhotos p) (photoLabels p)
                (selectedPhotoIndex s) rand) as Hlen.
  split; [exact Hlen |].
  split; [unfold items; now rewrite mapItems_length |].
  split; [| intros; split; reflexivity].
  assert (Hi : (i < List.length (uploadedPhotos p))%nat)
    by (apply nth_error_Some; congruence).
  destruct (nth_error (photoData (uploadedPhotos p) (photoLabels p)
                         (selectedPhotoIndex s) rand) i) as [d |] eqn:Hd.
  2:{ apply nth_error_None in Hd. lia. }
  destruct (photoData_nth _ _ _ _ _ _ Hd) as (Hid & Hurl & Hlabel & _).
  eexists. split.
  { unfold items. rewrite mapItems_nth, Hd. reflexivity. }
  cbn. repeat split; auto.
  - rewrite Hurl. now apply nth_error_nth.
  - intros labels l Hl Hnth Hne. rewrite Hlabel, Hl.
    now apply labelFor_present.
  - intros H. rewrite Hlabel. now apply labelFor_absent.
Qed.

Example one_item_per_photo_three :
  List.length
    (items (mkProps FORMED ["blob:1"; "blob:2"; "blob:3"] random (Some ["Paris"; ""]))
       initial (fun _ => 0.5%Q))
  = 3%nat.
Proof.
  apply (one_item_per_photo
           (mkProps FORMED ["blob:1"; "blob:2"; "blob:3"] random (Some ["Paris"; ""]))
           initial (fun _ => 0.5%Q) 1 "blob:2").
  reflexivity.
Defined.

Example labels_of_three_photos :
  List.map label
    (photoData ["blob:1"; "blob:2"; "blob:3"] (Some ["Paris"; ""]) None
       (fun _ => 0.5%Q))
  = ["Paris"; "Happy Memories"; "Happy Memories"].
Proof. reflexivity. Qed.

Lemma sameSelected_true (a b : option Z) : sameSelected a b = true -> a = b.
Proof.
  destruct a as [x |], b as [y |]; cbn; intros H; try discriminate H;
    [apply Z.eqb_eq in H; now subst | reflexivity].
Qed.

(** With the memo, the items of every render are still one per uploaded
    photo, with the url and the selection flag of the current render: the
    photo data that [useMemo] hands back was computed from the current
    photo list and the current selection (by some earlier labels and
    draws), as long as the cell it keeps was computed from the array of its
    identity. *)
Lemma useMemoPhotoData_current (cell : option MemoCell) (r : Render) (s : State) :
  (forall c, cell = Some c -> dep_uploadedPhotos c = photosId r ->
     computedFrom (uploadedPhotos (render_props r)) c) ->
  let m := useMemoPhotoData cell r s in
  (exists labels rand,
     memo_value m
     = photoData (uploadedPhotos (render_props r)) labels (selectedPhotoIndex s) rand) /\
  List.length (memo_value m) = List.length (uploadedPhotos (render_props r)).
Proof.
  intros Hcell. cbn zeta.
  assert (H : exists labels rand,
            memo_value (useMemoPhotoData cell r s)
            = photoData (uploadedPhotos (render_props r)) labels
                (selectedPhotoIndex s) rand).
  { unfold useMemoPhotoData. destruct cell as [c |].
    - destruct (Nat.eqb (dep_uploadedPhotos c) (photosId r)
                && sameSelected (dep_selectedPhotoIndex c) (selectedPhotoIndex s))%bool
        eqn:Hdeps.
      + apply andb_prop in Hdeps. destruct Hdeps as [Hid Hsel].
        apply Nat.eqb_eq in Hid. apply sameSelected_true in Hsel.
        destruct (Hcell c eq_refl Hid) as (labels & rand & Hv).
        exists labels, rand. now rewrite Hv, Hsel.
      + eexists. eexists. reflexivity.
    - eexists. eexists. reflexivity. }
  split; [exact H |].
  destruct H as (labels & rand & ->). apply photoData_length.
Qed.

(** C9 at the input on which it fails.  One photo, rendered with the label
    'Paris' and then, with the same array of photos and nothing selected,
    with the label 'Oslo': both dependencies of [useMemo] are unchanged, the
    photo data is not computed again, and the item still has the label
    'Paris' although [photoLabels[0]] is 'Oslo'.  The number of items and
    the url are those of the upload. *)
Theorem stale_label_after_label_change (rand1 rand2 : RandomStream) :
  let photos := ["blob:1"] in
  let first :=
    mkRender (mkProps FORMED photos random (Some ["Paris"])) 1 rand1 0%Q in
  let second :=
    mkRender (mkProps FORMED photos random (Some ["Oslo"])) 1 rand2 0%Q in
  let c := renderAll [first; second] unmounted in
  List.map item_photoLabel (comp_shown c) = ["Paris"] /\
  labelFor (photoLabels (render_props second)) 0 = "Oslo" /\
  List.length (comp_shown c) = List.length photos /\
  List.map (fun it => url (item_data it)) (comp_shown c) = photos.
Proof. cbv zeta. repeat split. Qed.

(** The same two renders with a new array of the same photo in the second:
    the dependency changes, the photo data is computed again, and the label
    is 'Oslo'. *)
Example fresh_label_after_upload (rand1 rand2 : RandomStream) :
  let first :=
    mkRender (mkProps FORMED ["blob:1"] random (Some ["Paris"])) 1 rand1 0%Q in
  let second :=
    mkRender (mkProps FORMED ["blob:1"] random (Some ["Oslo"])) 2 rand2 0%Q in
  List.map item_photoLabel (comp_shown (renderAll [first; second] unmounted))
  = ["Oslo"].
Proof. reflexivity. Qed.

End PhotoItems.

(* ================================================================== *)
(** * Properties of the pinch selection *)

Section Selection.
Import Polaroids.

Lemma randomIndex_in_range (r : Q) (n : Z) :
  (0 <= r)%Q -> (r < 1)%Q -> (0 < n)%Z ->
  (0 <= randomIndex r n < n)%Z.
Proof.
  intros H0 H1 Hn. unfold randomIndex.
  assert (HnQ : (inject_Z 0 < inject_Z n)%Q) by (now rewrite <- Zlt_Qlt).
  change (inject_Z 0) with 0%Q in HnQ.
  split.
  - change 0%Z with (Qfloor 0). apply Qfloor_resp_le. nra.
  - rewrite Zlt_Qlt.
    apply Qle_lt_trans with (r * inject_Z n)%Q; [apply Qfloor_le | nra].
Qed.

(** The effect run again on its own result changes nothing: the renders
    that its state changes bring settle at once. *)
Lemma selectEffect_settled (p : PolaroidsProps) (r r' : Q) (s : State) :
  selectEffect p r' (selectEffect p r s) = selectEffect p r s.
Proof.
  unfold selectEffect.
  destruct (TreeMode_eqb (mode p) PINCH && _)%bool.
  - destruct (selectedPhotoIndex s) as [k |] eqn:Hs.
    + rewrite Hs. reflexivity.
    + destruct (photoDisplayMode p); reflexivity.
  - reflexivity.
Qed.

(** The effect reads the props through its dependencies only, so a render
    whose dependencies are unchanged leaves the state as it is. *)
Lemma selectEffect_same_deps (p p' : PolaroidsProps) (r r' : Q) (s : State) :
  mode p' = mode p ->
  List.length (uploadedPhotos p') = List.length (uploadedPhotos p) ->
  photoDisplayMode p' = photoDisplayMode p ->
  selectEffect p' r' (selectEffect p r s) = selectEffect p r s.
Proof.
  intros Hm Hl Hd. rewrite <- (selectEffect_settled p r r' s) at 2.
  unfold selectEffect at 1 3. now rewrite Hm, Hl, Hd.
Qed.

Lemma pinch_condition (p : PolaroidsProps) :
  mode p = PINCH -> uploadedPhotos p <> [] ->
  (TreeMode_eqb (mode p) PINCH
   && (0 <? Z.of_nat (List.length (uploadedPhotos p)))%Z)%bool = true.
Proof.
  intros -> Hne. destruct (uploadedPhotos p); [congruence | reflexivity].
Qed.

(** Leaving PINCH clears the selection. *)
Lemma selectEffect_leaving_pinch (p : PolaroidsProps) (r : Q) (s : State) :
  mode p <> PINCH ->
  selectEffect p r s
  = {| selectedPhotoIndex := None; sequentialIndex := sequentialIndex s |}.
Proof.
  intros Hm. unfold selectEffect.
  destruct (mode p); try congruence; reflexivity.
Qed.

(** Entering PINCH with a draw in [0, 1) and a counter below the number of
    photos selects an index of the photo list. *)
Lemma selectEffect_entering_pinch (p : PolaroidsProps) (r : Q) (s : State) :
  mode p = PINCH -> uploadedPhotos p <> [] ->
  selectedPhotoIndex s = None ->
  (0 <= r)%Q -> (r < 1)%Q ->
  (0 <= sequentialIndex s < Z.of_nat (List.length (uploadedPhotos p)))%Z ->
  exists k,
    selectedPhotoIndex (selectEffect p r s) = Some k /\
    (0 <= k < Z.of_nat (List.length (uploadedPhotos p)))%Z /\
    (0 <= sequentialIndex (selectEffect p r s)
     < Z.of_nat (List.length (uploadedPhotos p)))%Z.
Proof.
  intros Hm Hne Hs H0 H1 Hseq. unfold selectEffect.
  rewrite (pinch_condition p Hm Hne), Hs.
  destruct (photoDisplayMode p); cbn [selectedPhotoIndex sequentialIndex].
  - eexists. split; [reflexivity |]. split; [| exact Hseq].
    apply randomIndex_in_range; auto. lia.
  - eexists. split; [reflexivity |]. split; [exact Hseq |].
    rewrite Z.rem_mod_nonneg by lia. apply Z.mod_pos_bound. lia.
Qed.

(** In a PINCH frame the selected photo alone goes to the pinch position. *)
Lemma frameTarget_pinch (d : PhotoData) :
  frameTarget PINCH d = if isSelected d then pinchPos d else chaosPos d.
Proof. reflexivity. Qed.

Lemma frameTarget_not_pinch (m : TreeMode) (d : PhotoData) :
  m <> PINCH ->
  frameTarget m d = if TreeMode_eqb m FORMED then targetPos d else chaosPos d.
Proof. destruct m; intros H; try congruence; reflexivity. Qed.

(** With a photo list that stays the same, the counter and the selection
    stay inside it. *)
Lemma renders_fixed_photos (photos : list string)
  (history : list (PolaroidsProps * Q)) (s : State) :
  photos <> [] ->
  (forall pr, In pr history ->
     uploadedPhotos (fst pr) = photos /\ (0 <= snd pr)%Q /\ (snd pr < 1)%Q) ->
  (0 <= sequentialIndex s < Z.of_nat (List.length photos))%Z ->
  (forall k, selectedPhotoIndex s = Some k ->
     (0 <= k < Z.of_nat (List.length photos))%Z) ->
  let s' := renders history s in
  (0 <= sequentialIndex s' < Z.of_nat (List.length photos))%Z /\
  (forall k, selectedPhotoIndex s' = Some k ->
     (0 <= k < Z.of_nat (List.length photos))%Z).
Proof.
  intros Hne. revert s.
  induction history as [| [p r] history IH]; intros s Hh Hseq Hsel; cbn zeta.
  - split; assumption.
  - cbn [renders fold_left]. apply IH.
    + intros pr Hpr. apply Hh. now right.
    + destruct (Hh (p, r) (or_introl eq_refl)) as (Hp & H0 & H1).
      cbn [fst snd] in *. unfold render, selectEffect. cbn [fst snd].
      rewrite Hp.
      destruct (TreeMode_eqb (mode p) PINCH && _)%bool; cbn; [| exact Hseq].
      destruct (selectedPhotoIndex s); [exact Hseq |].
      destruct (photoDisplayMode p); cbn; [exact Hseq |].
      assert (0 < Z.of_nat (List.length photos))%Z
        by (destruct photos; [congruence | cbn; lia]).
      rewrite Z.rem_mod_nonneg by lia. apply Z.mod_pos_bound. lia.
    + destruct (Hh (p, r) (or_introl eq_refl)) as (Hp & H0 & H1).
      cbn [fst snd] in *. unfold render, selectEffect. cbn [fst snd].
      rewrite Hp. intros k.
      destruct (TreeMode_eqb (mode p) PINCH && _)%bool eqn:Hc; cbn;
        [| discriminate].
      destruct (selectedPhotoIndex s) as [k0 |] eqn:Hs.
      * rewrite Hs. apply Hsel.
      * assert (0 < Z.of_nat (List.length photos))%Z
          by (destruct photos; [congruence | cbn; lia]).
        destruct (photoDisplayMode p); cbn; intros [= <-].
        -- now apply randomIndex_in_range.
        -- exact Hseq.
Qed.

(** Successive sequential pinch entries over one photo list take the photos
    in order. *)
Example sequential_cycle :
  let photos := ["blob:1"; "blob:2"; "blob:3"] in
  let pinch := (mkProps PINCH photos sequential None, 0%Q) in
  let formed := (mkProps FORMED photos sequential None, 0%Q) in
  List.map (fun h => selectedPhotoIndex (renders h initial))
    [ [pinch];
      [pinch; formed; pinch];
      [pinch; formed; pinch; formed; pinch];
      [pinch; formed; pinch; formed; pinch; formed; pinch] ]
  = [Some 0%Z; Some 1%Z; Some 2%Z; Some 0%Z].
Proof. reflexivity. Qed.

Example random_pick :
  selectedPhotoIndex
    (renders [(mkProps PINCH ["blob:1"; "blob:2"; "blob:3"; "blob:4"] random None,
               0.6%Q)] initial)
  = Some 2%Z.
Proof. reflexivity. Qed.

(** C2 at the input on which it fails.  Two photos, one sequential pinch
    entry, then the photos are replaced by a single photo and the mode
    becomes PINCH again: the selection is index 1 of a list of one photo,
    no photo is marked as selected, and every photo moves to its chaos
    position. *)
Theorem pinch_after_replace_selects_no_photo (rand : RandomStream) :
  let two := ["blob:1"; "blob:2"] in
  let one := ["blob:3"] in
  let last := mkProps PINCH one sequential None in
  let s := renders [ (mkProps FORMED two sequential None, 0%Q);
                     (mkProps PINCH two sequential None, 0%Q);
                     (mkProps FORMED two sequential None, 0%Q);
                     (mkProps FORMED one sequential None, 0%Q);
                     (last, 0%Q) ] initial in
  selectedPhotoIndex s = Some 1%Z /\
  List.length (uploadedPhotos last) = 1%nat /\
  List.map (fun it => isSelected (item_data it)) (items last s rand) = [false] /\
  frameTargets last s rand
  = List.map (fun it => chaosPos (item_data it)) (items last s rand).
Proof. cbv zeta. repeat split. Qed.

(** C10 at the input on which it fails.  Three photos and two sequential
    pinch entries leave the counter at 2; once the photos are replaced by
    two photos the counter is outside [0, 2), the next pinch entry selects
    index 2, and only then the counter is reduced modulo 2. *)
Theorem sequential_counter_leaves_range :
  let three := ["blob:1"; "blob:2"; "blob:3"] in
  let two := ["blob:4"; "blob:5"] in
  let before := [ (mkProps PINCH three sequential None, 0%Q);
                  (mkProps FORMED three sequential None, 0%Q);
                  (mkProps PINCH three sequential None, 0%Q);
                  (mkProps FORMED three sequential None, 0%Q);
                  (mkProps FORMED two sequential None, 0%Q) ] in
  let s := renders before initial in
  let s' := renders [(mkProps PINCH two sequential None, 0%Q)] s in
  sequentialIndex s = 2%Z /\
  selectedPhotoIndex s' = Some 2%Z /\
  ~ (0 <= 2 < Z.of_nat (List.length two))%Z /\
  sequentialIndex s' = 1%Z.
Proof. cbv zeta. repeat split. cbn. lia. Qed.

(** C3, as the code has it.  The component keeps two cells of state that
    its effect updates from the mode: outside PINCH the selection is
    cleared and the target of each photo follows from the mode alone; in
    PINCH the target of a photo follows from its selection flag, and a
    sequential pinch entry takes the selection from the stored counter and
    advances it. *)
Theorem display_follows_mode_and_selection (p : PolaroidsProps) (r : Q) (s : State) :
  (mode p <> PINCH ->
   selectedPhotoIndex (selectEffect p r s) = None /\
   sequentialIndex (selectEffect p r s) = sequentialIndex s /\
   forall d, frameTarget (mode p) d
             = if TreeMode_eqb (mode p) FORMED then targetPos d else chaosPos d) /\
  (forall d, frameTarget PINCH d = if isSelected d then pinchPos d else chaosPos d) /\
  (mode p = PINCH -> uploadedPhotos p <> [] -> selectedPhotoIndex s = None ->
   photoDisplayMode p = sequential ->
   selectedPhotoIndex (selectEffect p r s) = Some (sequentialIndex s) /\
   sequentialIndex (selectEffect p r s)
   = Z.rem (sequentialIndex s + 1) (Z.of_nat (List.length (uploadedPhotos p)))).
Proof.
  split; [| split].
  - intros Hm. rewrite (selectEffect_leaving_pinch p r s Hm). cbn.
    repeat split. intros d. now apply frameTarget_not_pinch.
  - exact frameTarget_pinch.
  - intros Hm Hne Hs Hd. unfold selectEffect.
    rewrite (pinch_condition p Hm Hne), Hs, Hd. split; reflexivity.
Qed.

Lemma display_follows_mode_and_selection_witness :
  selectedPhotoIndex
    (selectEffect (mkProps PINCH ["blob:1"; "blob:2"] sequential None) 0%Q
       (mkState None 1))
  = Some 1%Z /\
  selectedPhotoIndex
    (selectEffect (mkProps FORMED ["blob:1"; "blob:2"] sequential None) 0%Q
       (mkState (Some 1%Z) 0))
  = None.
Proof.
  split.
  - apply (display_follows_mode_and_selection
             (mkProps PINCH ["blob:1"; "blob:2"] sequential None) 0%Q
             (mkState None 1));
      [reflexivity | discriminate | reflexivity | reflexivity].
  - apply (display_follows_mode_and_selection
             (mkProps FORMED ["blob:1"; "blob:2"] sequential None) 0%Q
             (mkState (Some 1%Z) 0)).
    discriminate.
Defined.

(** C3, as stated, fails: the same props after two histories show two
    different photos. *)
Lemma selection_depends_on_history :
  let photos := ["blob:1"; "blob:2"] in
  let pinch := (mkProps PINCH photos sequential None, 0%Q) in
  let formed := (mkProps FORMED photos sequential None, 0%Q) in
  selectedPhotoIndex (renders ([] ++ [pinch]) initial) = Some 0%Z /\
  selectedPhotoIndex (renders ([pinch; formed] ++ [pinch]) initial) = Some 1%Z /\
  ~ (forall h1 h2 pr,
       selectedPhotoIndex (renders (h1 ++ [pr]) initial)
       = selectedPhotoIndex (renders (h2 ++ [pr]) initial)).
Proof.
  cbv zeta. split; [reflexivity | split; [reflexivity |]].
  intros H.
  specialize (H [] [ (mkProps PINCH ["blob:1"; "blob:2"] sequential None, 0%Q);
                     (mkProps FORMED ["blob:1"; "blob:2"] sequential None, 0%Q) ]
                (mkProps PINCH ["blob:1"; "blob:2"] sequential None, 0%Q)).
  discriminate H.
Qed.

End Selection.

(* ================================================================== *)
(** * Further properties of the trunk *)

Section TrunkShaderFacts.
Local Open Scope Q_scope.
Import TreeTrunk.

(** X1.  On [0, 1] the easing curve is symmetric about its midpoint:
    [cubicInOut (1 - t) = 1 - cubicInOut t] for every [t] with
    [0 <= t <= 1]. *)
Theorem cubicInOut_symmetric (t : Q) (Ht : 0 <= t <= 1) :
  cubicInOut (1 - t) == 1 - cubicInOut t.
Proof.
  destruct (Qlt_le_dec t 0.5) as [Hlo | Hhi].
  - rewrite (cubicInOut_low t Hlo).
    rewrite (cubicInOut_high (1 - t)) by lra. ring.
  - rewrite (cubicInOut_high t Hhi) by lra.
    destruct (Qlt_le_dec (1 - t) 0.5) as [Hlo' | Hhi'].
    + rewrite (cubicInOut_low (1 - t) Hlo'). ring.
    + rewrite (cubicInOut_high (1 - t) Hhi') by lra.
      assert (Heq : t == 0.5) by lra. rewrite Heq. reflexivity.
Qed.

Lemma cubicInOut_symmetric_witness :
  cubicInOut (1 - 0.2) == 1 - cubicInOut 0.2.
Proof.
  apply (cubicInOut_symmetric 0.2). split; vm_compute; discriminate.
Defined.

Lemma cubicInOut_in_unit (t : Q) : 0 <= t <= 1 -> 0 <= cubicInOut t <= 1.
Proof.
  intros [H0 H1]. split.
  - apply Qle_trans with (cubicInOut 0); [discriminate |].
    apply cubicInOut_monotone; lra.
  - apply Qle_trans with (cubicInOut 1); [| discriminate].
    apply cubicInOut_monotone; lra.
Qed.

(** X2.  Whatever the progress uniform and the seed of a particle are, the
    eased progress that mixes its two positions lies in [0, 1]. *)
Theorem easedProgress_in_unit (uProgress aRandom : Q) :
  0 <= easedProgress uProgress aRandom <= 1.
Proof.
  unfold easedProgress. apply cubicInOut_in_unit. apply localProgress_in_unit.
Qed.

Lemma clamp_monotone (x y : Q) : x <= y -> clamp x 0.0 1.0 <= clamp y 0.0 1.0.
Proof.
  intros Hxy. unfold clamp.
  apply Q.min_le_compat_r. apply Q.max_le_compat_r. exact Hxy.
Qed.

Lemma clamp_below (x : Q) : x <= 0 -> clamp x 0.0 1.0 == 0.
Proof.
  intros Hx. unfold clamp.
  destruct (Q.max_spec x 0.0) as [[_ Hmax] | [Hle Hmax]];
    destruct (Q.min_spec (Qmax x 0.0) 1.0) as [[_ Hmin] | [Hge Hmin]];
    rewrite Hmin; try rewrite Hmax; try rewrite Hmax in Hge; lra.
Qed.

Lemma clamp_above (x : Q) : 1 <= x -> clamp x 0.0 1.0 == 1.
Proof.
  intros Hx. unfold clamp.
  destruct (Q.max_spec x 0.0) as [[Hlt Hmax] | [_ Hmax]];
    destruct (Q.min_spec (Qmax x 0.0) 1.0) as [[Hlt' Hmin] | [_ Hmin]];
    rewrite Hmin; try rewrite Hmax; try rewrite Hmax in Hlt'; lra.
Qed.

(** X3.  For a seed in [0, 1], a progress uniform of 0 leaves the particle
    at its chaos position (eased progress 0) and a progress uniform of 1
    puts it on its target position (eased progress 1). *)
Theorem easedProgress_endpoints (aRandom : Q)
  (Hseed : 0 <= aRandom <= 1) :
  easedProgress 0 aRandom == 0 /\ easedProgress 1 aRandom == 1.
Proof.
  unfold easedProgress, localProgress. split.
  - assert (H : clamp (0 * 1.2 - aRandom * 0.2) 0.0 1.0 == 0)
      by (apply clamp_below; lra).
    rewrite cubicInOut_low by lra.
    rewrite H. reflexivity.
  - assert (H : clamp (1 * 1.2 - aRandom * 0.2) 0.0 1.0 == 1)
      by (apply clamp_above; lra).
    rewrite cubicInOut_high by lra.
    rewrite H. reflexivity.
Qed.

Lemma easedProgress_endpoints_witness :
  easedProgress 0 0.7 == 0 /\ easedProgress 1 0.7 == 1.
Proof.
  apply (easedProgress_endpoints 0.7).
  split; vm_compute; discriminate.
Defined.

(** X4.  A larger progress uniform never moves a particle backwards, and of
    two particles the one with the larger seed is never ahead: the eased
    progress is non-decreasing in [uProgress] and non-increasing in
    [aRandom]. *)
Theorem easedProgress_monotone (u1 u2 a1 a2 : Q)
  (Hu : u1 <= u2) (Ha : a2 <= a1) :
  easedProgress u1 a1 <= easedProgress u2 a2.
Proof.
  unfold easedProgress.
  pose proof (localProgress_in_unit u1 a1) as H1.
  pose proof (localProgress_in_unit u2 a2) as H2.
  apply cubicInOut_monotone; try lra.
  unfold localProgress. apply clamp_monotone. lra.
Qed.

Lemma easedProgress_monotone_witness :
  easedProgress 0.3 0.9 <= easedProgress 0.6 0.2.
Proof.
  apply (easedProgress_monotone 0.3 0.6 0.9 0.2); vm_compute; discriminate.
Defined.

End TrunkShaderFacts.

Section TrunkProgressFacts.
Local Open Scope Q_scope.
Import TreeTrunk.

Lemma useFrame_mounted (f : Frame) (s : TrunkState) (u : Uniforms) :
  meshRef s = Some u -> exists u', meshRef (useFrame f s) = Some u'.
Proof. intros H. unfold useFrame. rewrite H. eexists. reflexivity. Qed.

Lemma useFrame_contracts (f : Frame) (s : TrunkState) (u : Uniforms) :
  meshRef s = Some u ->
  progressTarget (frame_mode f) - progressRef (useFrame f s)
  == (1 - delta f * 3.5) * (progressTarget (frame_mode f) - progressRef s).
Proof.
  intros H. unfold useFrame. rewrite H. cbn [progressRef]. unfold lerp. ring.
Qed.

(** X5.  Over frames of one mode and one delta [d], each frame multiplies
    the distance of the progress from its target (1 when FORMED, 0
    otherwise) by [1 - 3.5 d]: after the frames [fs] the distance is
    [(1 - 3.5 d) ^ length fs] times what it was. *)
Theorem progress_geometric (m : TreeMode) (d : Q) (fs : list Frame)
  (s : TrunkState) (u : Uniforms)
  (Hmounted : meshRef s = Some u)
  (Hfs : forall f, In f fs -> frame_mode f = m /\ delta f = d) :
  progressTarget m - progressRef (runFrames fs s)
  == (1 - d * 3.5) ^ Z.of_nat (List.length fs)
     * (progressTarget m - progressRef s).
Proof.
  revert s u Hmounted.
  induction fs as [| f fs IH]; intros s u Hmounted.
  - cbn. ring.
  - cbn [runFrames fold_left].
    destruct (Hfs f (or_introl eq_refl)) as [Hm Hd].
    destruct (useFrame_mounted f s u Hmounted) as [u' Hu'].
    change (fold_left (fun st g => useFrame g st) fs (useFrame f s))
      with (runFrames fs (useFrame f s)).
    rewrite (IH (fun g Hg => Hfs g (or_intror Hg)) (useFrame f s) u' Hu').
    pose proof (useFrame_contracts f s u Hmounted) as Hc.
    rewrite Hm, Hd in Hc. rewrite Hc.
    cbn [List.length]. rewrite Nat2Z.inj_succ, <- Z.add_1_r.
    rewrite Qpower_plus' by lia.
    change ((1 - d * 3.5) ^ 1) with (1 - d * 3.5). ring.
Qed.

Lemma progress_geometric_witness :
  1 - progressRef
        (runFrames [mkFrame FORMED 0.1 0.1; mkFrame FORMED 0.2 0.1] (initial true))
  == (1 - 0.1 * 3.5) ^ 2 * (1 - 0).
Proof.
  apply (progress_geometric FORMED 0.1
           [mkFrame FORMED 0.1 0.1; mkFrame FORMED 0.2 0.1] (initial true)
           (mkUniforms 0 0)).
  - reflexivity.
  - intros f [Hf | [Hf | []]]; subst f; split; reflexivity.
Defined.

End TrunkProgressFacts.

Section TrunkBufferFacts.
Import TreeTrunk.

Lemma fill_calls (rand : RandomStream) (n : nat) (b0 : Buffers) :
  TreeTrunk.calls (fold_left (fillParticle rand) (seq 0 n) b0)
  = (TreeTrunk.calls b0 + 7 * n)%nat.
Proof.
  induction n as [| n IH].
  - cbn. lia.
  - rewrite seq_S, fold_left_app. cbn [fold_left Nat.add fillParticle TreeTrunk.calls].
    rewrite IH. lia.
Qed.

Lemma fill_sized (rand : RandomStream) (count n : nat) (b0 : Buffers) :
  sized count b0 -> sized count (fold_left (fillParticle rand) (seq 0 n) b0).
Proof.
  intros Hsz. induction n as [| n IH]; [exact Hsz |].
  rewrite seq_S, fold_left_app. cbn [fold_left]. now apply fillParticle_sized.
Qed.

(** X6.  Whatever the draws are, the generated attribute arrays have the
    sizes the buffer attributes declare ([3 * count] coordinates for the two
    position arrays, [count] seeds), and the generation calls
    [Math.random()] exactly seven times per particle. *)
Theorem particleAttributes_sizes (count : nat) (rand : RandomStream) :
  let b := particleAttributes count rand in
  List.length (chaosPositions b) = (count * 3)%nat /\
  List.length (targetPositions b) = (count * 3)%nat /\
  List.length (randoms b) = count /\
  TreeTrunk.calls b = (7 * count)%nat.
Proof.
  cbn zeta. unfold particleAttributes.
  pose proof (fill_sized rand count count
                {| chaosPositions := Float32Array (count * 3);
                   targetPositions := Float32Array (count * 3);
                   randoms := Float32Array count;
                   TreeTrunk.calls := 0 |}) as Hs.
  destruct Hs as (Hc & Ht & Hr).
  { unfold sized, Float32Array. cbn. rewrite !repeat_length. auto. }
  rewrite fill_calls. cbn. auto.
Qed.

End TrunkBufferFacts.

(* ================================================================== *)
(** * Further properties of the camera callback *)

Section CameraFacts.
Local Open Scope R_scope.
Import Experience.

Variable Internals : Type.
Variables getAzimuthalAngle getPolarAngle getDistance : Controls Internals -> R.
Variable update : Controls Internals -> Controls Internals.

Lemma hypot_same (a b : R) : hypot (a - a) (b - b) = 0.
Proof.
  unfold hypot. replace ((a - a) * (a - a) + (b - b) * (b - b)) with 0 by ring.
  apply sqrt_0.
Qed.

(** X7.  A hand position moves the camera at most once: a second frame with
    the same hand position changes nothing, whatever the two deltas are. *)
Theorem useFrame_same_hand (hand : HandPosition) (delta1 delta2 : R)
  (s : State Internals) :
  useFrame Internals getAzimuthalAngle getPolarAngle getDistance update
    hand delta2
    (useFrame Internals getAzimuthalAngle getPolarAngle getDistance update
       hand delta1 s)
  = useFrame Internals getAzimuthalAngle getPolarAngle getDistance update
      hand delta1 s.
Proof.
  unfold useFrame at 2 3.
  destruct (controlsRef _ s) as [controls |] eqn:Hc.
  2:{ unfold useFrame. now rewrite Hc. }
  destruct (detected hand) eqn:Hdet.
  2:{ unfold useFrame. now rewrite Hc, Hdet. }
  destruct (Rlt_dec MOVEMENT_THRESHOLD _) as [Hfar | Hnear].
  - unfold useFrame. cbn [controlsRef prevHandPos fst snd]. rewrite Hdet.
    rewrite hypot_same.
    destruct (Rlt_dec MOVEMENT_THRESHOLD 0) as [Habs | _]; [| reflexivity].
    unfold MOVEMENT_THRESHOLD in Habs. lra.
  - unfold useFrame. rewrite Hc, Hdet.
    destruct (Rlt_dec MOVEMENT_THRESHOLD _) as [Hfar | _];
      [contradiction | reflexivity].
Qed.

Lemma clamp01 (x : R) : 0 <= Rmax 0 (Rmin 1 x) <= 1.
Proof.
  split; [apply Rmax_l |].
  apply Rmax_lub; [lra | apply Rmin_l].
Qed.

(** X8.  A camera move hands to [controls.update()] a target on the axis of
    the tree at a height between 3 and 7, and a camera position at the
    distance from that target that the controls reported before the move. *)
Theorem moveCamera_placement (hand : HandPosition) (delta : R)
  (controls : Controls Internals) :
  let placed :=
    placeCamera Internals getAzimuthalAngle getPolarAngle getDistance
      hand delta controls in
  let p := object_position _ placed in
  let t := target _ placed in
  moveCamera Internals getAzimuthalAngle getPolarAngle getDistance update
    hand delta controls = update placed /\
  vx t = 0 /\ vz t = 0 /\ 3 <= vy t <= 7 /\
  (vx p - vx t) * (vx p - vx t) + (vy p - vy t) * (vy p - vy t)
  + (vz p - vz t) * (vz p - vz t)
  = getDistance controls * getDistance controls.
Proof.
  cbn zeta. split; [reflexivity |].
  cbn [placeCamera target object_position vx vy vz].
  split; [reflexivity | split; [reflexivity |]].
  split.
  - unfold targetYOf. pose proof (clamp01 (hand_y hand)). lra.
  - set (P := newPolarOf _ _ _ _ _).
    set (A := newAzimuthOf _ _ _ _ _).
    set (r := getDistance controls).
    pose proof (sin2_cos2 P) as HP. pose proof (sin2_cos2 A) as HA.
    unfold Rsqr in HP, HA.
    replace ((r * sin P * sin A - 0) * (r * sin P * sin A - 0)
             + (targetYOf hand + r * cos P - targetYOf hand)
               * (targetYOf hand + r * cos P - targetYOf hand)
             + (r * sin P * cos A - 0) * (r * sin P * cos A - 0))
      with (r * r * (sin P * sin P * (sin A * sin A + cos A * cos A)
                     + cos P * cos P)) by ring.
    rewrite HA. replace (sin P * sin P * 1 + cos P * cos P)
      with (sin P * sin P + cos P * cos P) by ring.
    rewrite HP. ring.
Qed.

Lemma targetPolarOf_range (hand : HandPosition) :
  PI / 4 <= targetPolarOf hand <= PI / 1.8.
Proof.
  unfold targetPolarOf. cbv zeta.
  pose proof (clamp01 ((hand_y hand - 0.2) * 1.5)) as Hc.
  set (c := Rmax 0 (Rmin 1 ((hand_y hand - 0.2) * 1.5))) in *.
  pose proof PI_RGT_0 as Hpi.
  assert (Hspan : 0 <= PI / 1.8 - PI / 4) by lra.
  split; nra.
Qed.

(** X9.  The polar angle that the hand asks for lies between the limits
    PI/4 and PI/1.8 of the controls; and when the current polar angle is
    within these limits and [0 <= delta * 10 <= 1], so is the interpolated
    polar angle of the move. *)
Theorem newPolar_within_limits (hand : HandPosition) (delta : R)
  (controls : Controls Internals)
  (Hcur : PI / 4 <= getPolarAngle controls <= PI / 1.8)
  (Hdelta : 0 <= delta * 10 <= 1) :
  PI / 4 <= targetPolarOf hand <= PI / 1.8 /\
  PI / 4 <= newPolarOf Internals getPolarAngle hand delta controls <= PI / 1.8.
Proof.
  pose proof (targetPolarOf_range hand) as Ht.
  split; [exact Ht |].
  unfold newPolarOf.
  set (c := getPolarAngle controls) in *.
  set (t := targetPolarOf hand) in *.
  replace (c + (t - c) * delta * 10)
    with ((1 - delta * 10) * c + (delta * 10) * t) by ring.
  split; nra.
Qed.

(** X10.  For a hand abscissa in [0, 1] and a current azimuth in
    [-PI, PI], the wrapped difference of azimuths lies in [-PI, PI] and is
    the raw difference up to a full turn: the camera turns the short way. *)
Theorem wrapAzimuth_short_way (hand : HandPosition)
  (controls : Controls Internals)
  (Hx : 0 <= hand_x hand <= 1)
  (Hcur : - PI <= getAzimuthalAngle controls <= PI) :
  let raw := (hand_x hand - 0.5) * PI * 2 - getAzimuthalAngle controls in
  - PI <= wrapAzimuth raw <= PI /\
  (wrapAzimuth raw = raw \/ wrapAzimuth raw = raw - PI * 2 \/
   wrapAzimuth raw = raw + PI * 2).
Proof.
  cbn zeta. pose proof PI_RGT_0 as Hpi.
  assert (Ht : - PI <= (hand_x hand - 0.5) * PI * 2 <= PI) by (split; nra).
  set (raw := (hand_x hand - 0.5) * PI * 2 - getAzimuthalAngle controls).
  assert (Hraw : - (2 * PI) <= raw <= 2 * PI) by (unfold raw; lra).
  unfold wrapAzimuth. cbv zeta.
  destruct (Rlt_dec PI raw) as [Hbig | Hsmall].
  - destruct (Rlt_dec (raw - PI * 2) (- PI)) as [Hlow | Hok]; [lra |].
    split; [lra | right; left; reflexivity].
  - destruct (Rlt_dec raw (- PI)) as [Hlow | Hok].
    + split; [lra | right; right; reflexivity].
    + split; [lra | left; reflexivity].
Qed.

End CameraFacts.

Lemma newPolar_within_limits_witness :
  (PI / 4 <= Experience.targetPolarOf (Experience.mkHandPosition 0.3 0.6 true)
   <= PI / 1.8)%R.
Proof.
  apply (newPolar_within_limits unit (fun _ => (PI / 4)%R)
           (Experience.mkHandPosition 0.3 0.6 true) 0.05%R
           (Experience.mkControls unit (mkVector3 0 4 20) (mkVector3 0 0 0) tt)).
  - pose proof PI_RGT_0. cbv beta. lra.
  - lra.
Defined.

Lemma wrapAzimuth_short_way_witness :
  (- PI <= Experience.wrapAzimuth ((0.9 - 0.5) * PI * 2 - - PI) <= PI)%R.
Proof.
  apply (wrapAzimuth_short_way unit (fun _ => (- PI)%R)
           (Experience.mkHandPosition 0.9 0.1 true)
           (Experience.mkControls unit (mkVector3 0 4 20) (mkVector3 0 0 0) tt)).
  - cbn. lra.
  - pose proof PI_RGT_0. cbv beta. lra.
Defined.

(* ================================================================== *)
(** * Further properties of the overlay *)

Section UploadFacts.
Import UIOverlay.

Lemma readers_resolved (fs : list File) (urls : list string) :
  Promise_all (readers fs) = Some urls ->
  urls = imageDataURLs fs /\
  forall f, In f fs -> String.prefix "image/" (type f) = true ->
    exists u, read f = ReadLoaded u /\ truthy u = true.
Proof.
  revert urls. induction fs as [| f fs IH]; intros urls H.
  - cbn in H. injection H as <-. split; [reflexivity | intros f []].
  - cbn [readers imageDataURLs] in *.
    destruct (String.prefix "image/" (type f)) eqn:Himg; cbn [negb] in H.
    + cbn [Promise_all] in H. unfold readAsDataURL in H.
      destruct (read f) as [result |] eqn:Hread; [| discriminate H].
      destruct (truthy result) eqn:Hres; [| discriminate H].
      destruct (Promise_all (readers fs)) as [vs |] eqn:Hall; [| discriminate H].
      injection H as <-. destruct (IH vs eq_refl) as [-> Hrest].
      split; [reflexivity |].
      intros g [<- | Hg] Hgimg; [now exists result | now apply Hrest].
    + destruct (IH urls H) as [-> Hrest]. split; [reflexivity |].
      intros g [<- | Hg] Hgimg; [congruence | now apply Hrest].
Qed.

(** X11.  [onPhotosUpload] is called exactly when the event carries at
    least one file and every selected image file is read with a non-empty
    result; its argument is then the list of these results in the order of
    the selection.  In every other case it is not called at all. *)
Theorem handleFileChange_called_iff (fs : list File) (urls : list string) :
  (handleFileChange (Some fs) = [urls] <->
   fs <> [] /\
   (forall f, In f fs -> String.prefix "image/" (type f) = true ->
      exists u, read f = ReadLoaded u /\ truthy u = true) /\
   urls = imageDataURLs fs) /\
  (handleFileChange (Some fs) = [imageDataURLs fs] \/
   handleFileChange (Some fs) = []).
Proof.
  split; [split |].
  - intros H. unfold handleFileChange in H.
    destruct fs as [| f rest]; [discriminate H |].
    destruct (Promise_all (readers (f :: rest))) as [vs |] eqn:Hall;
      [| discriminate H].
    injection H as ->. destruct (readers_resolved (f :: rest) urls Hall) as [-> Hr].
    repeat split; [discriminate | exact Hr].
  - intros (Hne & Hread & ->). unfold handleFileChange.
    destruct fs as [| f rest]; [congruence |].
    now rewrite readers_all_loaded.
  - unfold handleFileChange. destruct fs as [| f rest]; [now right |].
    destruct (Promise_all (readers (f :: rest))) as [vs |] eqn:Hall;
      [| now right].
    left. now destruct (readers_resolved (f :: rest) vs Hall) as [-> _].
Qed.

End UploadFacts.

Section EditorFacts.
Import UIOverlay.

Lemma handleEditorEvents_app (cb : bool) (labels : list string)
  (es1 es2 : list EditorEvent) (s : EditorState) :
  handleEditorEvents cb labels (es1 ++ es2) s
  = let '(s1, calls1) := handleEditorEvents cb labels es1 s in
    let '(s2, calls2) := handleEditorEvents cb labels es2 s1 in
    (s2, (calls1 ++ calls2)%list).
Proof.
  revert s. induction es1 as [| e es1 IH]; intros s.
  - cbn. now destruct (handleEditorEvents cb labels es2 s).
  - cbn [handleEditorEvents app].
    destruct (handleEditor cb labels e s) as [s1 c1].
    rewrite IH.
    destruct (handleEditorEvents cb labels es1 s1) as [s2 c2].
    destruct (handleEditorEvents cb labels es2 s2) as [s3 c3].
    now rewrite app_assoc.
Qed.

Lemma last_cons_default (x : string) (l : list string) (d d' : string) :
  last (x :: l) d = last (x :: l) d'.
Proof.
  revert x. induction l as [| y l IH]; intros x; [reflexivity |].
  change (last (y :: l) d = last (y :: l) d'). apply IH.
Qed.

Lemma typing_keeps_index (cb : bool) (labels : list string)
  (texts : list string) (s : EditorState) :
  handleEditorEvents cb labels (List.map LabelChange texts) s
  = ({| isEditingLabel := isEditingLabel s;
        tempLabelText := last texts (tempLabelText s);
        editingPhotoIndex := editingPhotoIndex s |}, []).
Proof.
  revert s. induction texts as [| t texts IH]; intros s.
  - cbn. now destruct s.
  - cbn [List.map handleEditorEvents handleEditor]. rewrite IH. cbn.
    destruct texts as [| t' texts]; [reflexivity |].
    now rewrite (last_cons_default t' texts t (tempLabelText s)).
Qed.

(** X12.  Choosing photo [index] for editing, typing any number of texts
    and saving calls [onPhotoLabelChange] exactly once, with [index] and the
    last text typed, or, when nothing was typed, with the label shown for
    the photo ([photoLabels[index]] or 'Happy Memories'); cancelling instead
    of saving makes no call.  Either way the editor ends with no photo being
    edited and its text back to 'Happy Memories'. *)
Theorem edit_type_save (photoLabels : list string) (index : nat)
  (texts : list string) (s : EditorState) :
  let closed := {| isEditingLabel := isEditingLabel s;
                   tempLabelText := "Happy Memories";
                   editingPhotoIndex := None |} in
  handleEditorEvents true photoLabels
    (PhotoEdit index :: List.map LabelChange texts ++ [SaveLabel]) s
  = (closed, [(index, last texts (labelOrDefault photoLabels index))]) /\
  handleEditorEvents true photoLabels
    (PhotoEdit index :: List.map LabelChange texts ++ [CancelEdit]) s
  = (closed, []).
Proof.
  cbn zeta. split.
  - cbn [handleEditorEvents handleEditor].
    rewrite handleEditorEvents_app, typing_keeps_index. reflexivity.
  - cbn [handleEditorEvents handleEditor].
    rewrite handleEditorEvents_app, typing_keeps_index. reflexivity.
Qed.

(** X13.  Over any sequence of editor events, [onPhotoLabelChange] is only
    called for a photo that was chosen for editing: the index of every call
    is that of a [handlePhotoEdit] of the sequence, or the index being
    edited when the sequence starts; and without the callback prop no call
    is made. *)
Theorem calls_only_for_edited_photos (hasCallback : bool)
  (photoLabels : list string) (es : list EditorEvent) (s : EditorState) :
  (forall index text,
     In (index, text) (snd (handleEditorEvents hasCallback photoLabels es s)) ->
     editingPhotoIndex s = Some index \/ In (PhotoEdit index) es) /\
  snd (handleEditorEvents false photoLabels es s) = [].
Proof.
  split.
  - revert s. induction es as [| e es IH]; intros s index text H.
    + destruct H.
    + cbn [handleEditorEvents] in H.
      destruct (handleEditor hasCallback photoLabels e s) as [s1 c1] eqn:He.
      destruct (handleEditorEvents hasCallback photoLabels es s1) as [s2 c2] eqn:Hes.
      cbn [snd] in H. apply in_app_or in H. destruct H as [H | H].
      * destruct e; cbn in He; injection He as <- <-; try destruct H.
        destruct (editingPhotoIndex s) as [k |]; [| destruct H].
        destruct hasCallback; [| destruct H].
        destruct H as [[= <- <-] | []]. now left.
      * specialize (IH s1 index text). rewrite Hes in IH. cbn [snd] in IH.
        destruct (IH H) as [Hs1 | Hin]; [| right; now right].
        destruct e; cbn in He; injection He as <- <-; cbn in Hs1;
          try discriminate Hs1; try (now left).
        injection Hs1 as ->. right. now left.
  - revert s. induction es as [| e es IH]; intros s; [reflexivity |].
    cbn [handleEditorEvents].
    destruct (handleEditor false photoLabels e s) as [s1 c1] eqn:He.
    specialize (IH s1).
    destruct (handleEditorEvents false photoLabels es s1) as [s2 c2].
    cbn [snd] in *. subst c2.
    destruct e; cbn in He; injection He as <- <-; try reflexivity.
    now destruct (editingPhotoIndex s).
Qed.

End EditorFacts.

(* ================================================================== *)
(** * Further properties of the music player *)

Section PlayerFacts.
Import MusicPlayer.

Lemma playerStep_invariant (p : Player) (e : PlayerEvent) :
  playerInvariant p -> playerInvariant (playerStep p e).
Proof.
  unfold playerInvariant. intros Hinv.
  destruct e as [musicSrc | outcome |]; cbn [playerStep audioRef playing cleanup].
  - intros a [= <-]. cbn. auto.
  - destruct (audioRef p) as [a0 |]; cbn [option_map];
      [| intros a Ha; discriminate Ha].
    destruct (Hinv a0 eq_refl) as (Hp & Hl & Hv).
    intros a [= <-]. unfold toggleMusic. cbn [negb].
    destruct (playing p); destruct outcome; cbn; repeat split; auto;
      intros Hf; discriminate Hf.
  - intros a Ha. discriminate Ha.
Qed.

(** X14.  From its first render on, through any changes of the source,
    clicks (whether [play()] succeeds or is rejected) and unmounting:
    whenever [isPlaying] is false the audio element, if there is one, is
    paused; and every element the player holds loops at volume 0.5. *)
Theorem player_flag_covers_sound (musicSrc : string) (es : list PlayerEvent) :
  let p := playerRun es (mount musicSrc) in
  forall a, audioRef p = Some a ->
    (playing p = false -> paused a = true) /\
    loop a = true /\ volume a = 0.5%Q.
Proof.
  cbn zeta.
  assert (H : forall p, playerInvariant p -> playerInvariant (playerRun es p)).
  { induction es as [| e es IH]; intros p Hp; [exact Hp |].
    cbn [playerRun fold_left]. apply IH. now apply playerStep_invariant. }
  apply H. intros a Ha. cbn in Ha. injection Ha as <-. cbn. auto.
Qed.

(** X15.  A rejected [play()] still flips the flag: after such a click on a
    player that was not playing, [isPlaying] is true while the audio element
    is as it was, so the next click calls [pause()], not [play()], and a
    retry takes two clicks. *)
Theorem rejected_play_flips_flag (p : Player) (a : Audio) (err : string)
  (next : PlayOutcome)
  (Haudio : audioRef p = Some a) (Hstopped : playing p = false) :
  let p1 := playerStep p (Click (PlayRejected err)) in
  playing p1 = true /\
  audioRef p1 = Some a /\
  audioCalls (toggleMusic true (playing p1) next) = [pause] /\
  playing (playerStep p1 (Click next)) = false.
Proof.
  cbn zeta. cbn [playerStep]. rewrite Haudio, Hstopped. cbn. auto.
Qed.

Lemma rejected_play_flips_flag_witness :
  playing (playerStep (mount "carol.mp3") (Click (PlayRejected "NotAllowedError")))
  = true.
Proof.
  apply (rejected_play_flips_flag (mount "carol.mp3") (createAudio "carol.mp3")
           "NotAllowedError" PlayStarted); reflexivity.
Defined.

End PlayerFacts.

(* ================================================================== *)
(** * Further properties of the photo data *)

Section PhotoGeometry.
Local Open Scope R_scope.
Import Polaroids.

Variable uploadedPhotos : list string.
Variable photoLabels : option (list string).
Variable selected : option Z.
Variable rand : RandomStream.

Lemma pushPhoto_loop_entries (n : nat) :
  let b := fold_left (pushPhoto uploadedPhotos photoLabels selected rand)
             (seq 0 n) {| data := []; Polaroids.calls := 0 |} in
  data b
  = List.map (fun i => photoAt uploadedPhotos photoLabels selected rand (3 * i) i)
      (seq 0 n) /\
  Polaroids.calls b = (3 * n)%nat.
Proof.
  induction n as [| n [IHd IHc]]; cbn zeta.
  - split; reflexivity.
  - rewrite seq_S, fold_left_app, map_app. cbn [fold_left Nat.add List.map].
    cbn zeta in IHd, IHc.
    set (b := fold_left _ (seq 0 n) _) in *.
    split.
    + change (data (pushPhoto uploadedPhotos photoLabels selected rand b n))
        with (data b ++
              [photoAt uploadedPhotos photoLabels selected rand
                 (Polaroids.calls b) n])%list.
      now rewrite IHd, IHc.
    + cbn [pushPhoto Polaroids.calls]. lia.
Qed.

Lemma photoData_map :
  photoData uploadedPhotos photoLabels selected rand
  = List.map (fun i => photoAt uploadedPhotos photoLabels selected rand (3 * i) i)
      (seq 0 (List.length uploadedPhotos)).
Proof.
  unfold photoData.
  destruct (Nat.eqb (List.length uploadedPhotos) 0) eqn:H0.
  - apply Nat.eqb_eq in H0. rewrite H0. reflexivity.
  - apply (pushPhoto_loop_entries (List.length uploadedPhotos)).
Qed.

(** X16.  The photo data is the list, over the positions [i] of the uploaded
    photos in order, of the entries computed from [i] and from the draws
    [3 i], [3 i + 1] and [3 i + 2] of [Math.random()]: three draws per
    photo, none shared between photos. *)
Theorem photoData_entries :
  photoData uploadedPhotos photoLabels selected rand
  = List.map (fun i => photoAt uploadedPhotos photoLabels selected rand (3 * i) i)
      (seq 0 (List.length uploadedPhotos)) /\
  List.length (photoData uploadedPhotos photoLabels selected rand)
  = List.length uploadedPhotos.
Proof.
  split; [exact photoData_map |].
  now rewrite photoData_map, length_map, length_seq.
Qed.

Lemma photoData_entry (i : nat) (d : PhotoData) :
  nth_error (photoData uploadedPhotos photoLabels selected rand) i = Some d ->
  (i < List.length uploadedPhotos)%nat /\
  d = photoAt uploadedPhotos photoLabels selected rand (3 * i) i.
Proof.
  rewrite photoData_map. intros H.
  assert (Hi : (i < List.length uploadedPhotos)%nat).
  { assert (Hsome : nth_error
                      (List.map
                         (fun i => photoAt uploadedPhotos photoLabels selected
                                     rand (3 * i) i)
                         (seq 0 (List.length uploadedPhotos))) i <> None)
      by congruence.
    apply nth_error_Some in Hsome.
    now rewrite length_map, length_seq in Hsome. }
  split; [exact Hi |].
  rewrite nth_error_map, nth_error_seq in H.
  destruct (Nat.ltb_spec i (List.length uploadedPhotos)) as [_ | Hge]; [| lia].
  cbn in H. now injection H as <-.
Qed.

Lemma position_ratio (i n : nat) :
  (i < n)%nat -> 0 <= INR i / INR n < 1.
Proof.
  intros Hi.
  assert (Hn : 0 < INR n) by (apply lt_0_INR; lia).
  assert (H0 : 0 <= INR i) by apply pos_INR.
  assert (H1 : INR i < INR n) by now apply lt_INR.
  split.
  - apply Rmult_le_pos; [exact H0 | left; now apply Rinv_0_lt_compat].
  - apply Rmult_lt_reg_r with (INR n); [exact Hn |].
    unfold Rdiv. rewrite Rmult_assoc, Rinv_l by lra. lra.
Qed.

(** X17.  Every photo hangs on the cone around the tree: the height [y] of
    its target position lies in [1.8, 7.2) (20% to 80% of the height 9), and
    the target is at the horizontal distance [5.8 - 5 y / 9] from the axis,
    a radius between 1.8 and 4.8 that decreases with the height. *)
Theorem targetPos_on_cone (i : nat) (d : PhotoData)
  (Hd : nth_error (photoData uploadedPhotos photoLabels selected rand) i = Some d) :
  let t := targetPos d in
  1.8 <= vy t < 7.2 /\
  vx t * vx t + vz t * vz t
  = (5.8 - 5 * vy t / 9) * (5.8 - 5 * vy t / 9) /\
  1.8 < 5.8 - 5 * vy t / 9 <= 4.8.
Proof.
  destruct (photoData_entry i d Hd) as [Hi ->].
  cbn zeta. cbn [photoAt targetPos vx vy vz].
  pose proof (position_ratio i (List.length uploadedPhotos) Hi) as Hq.
  set (q := INR i / INR (List.length uploadedPhotos)) in *.
  set (theta := INR i * 2.39996).
  pose proof (sin2_cos2 theta) as Ht. unfold Rsqr in Ht.
  split; [lra | split; [| lra]].
  replace ((5.0 * (1 - (0.2 + q * 0.6)) + 0.8) * cos theta
           * ((5.0 * (1 - (0.2 + q * 0.6)) + 0.8) * cos theta)
           + (5.0 * (1 - (0.2 + q * 0.6)) + 0.8) * sin theta
             * ((5.0 * (1 - (0.2 + q * 0.6)) + 0.8) * sin theta))
    with ((5.0 * (1 - (0.2 + q * 0.6)) + 0.8) * (5.0 * (1 - (0.2 + q * 0.6)) + 0.8)
          * (sin theta * sin theta + cos theta * cos theta)) by ring.
  rewrite Ht. clearbody q. nra.
Qed.

Lemma generated_speed (i : nat) (d : PhotoData) :
  unit_draws rand ->
  nth_error (photoData uploadedPhotos photoLabels selected rand) i = Some d ->
  0.8 <= speed d < 2.3.
Proof.
  intros Hrand Hd. destruct (photoData_entry i d Hd) as [_ ->].
  cbn [photoAt speed].
  pose proof (draw_in_unit rand (3 * i + 2) Hrand) as D2. lra.
Qed.


(** X19.  In a frame of at most 0.2 seconds the interpolation step of a
    generated photo, [delta * speed * 2], lies in [0, 1), and the step moves
    each coordinate of the photo towards its target without passing it: the
    remaining distance is [(1 - step)] times the distance before. *)
Theorem framePosition_approaches (i : nat) (d : PhotoData) (mode : TreeMode)
  (delta : R) (position : Vector3)
  (Hrand : unit_draws rand)
  (Hd : nth_error (photoData uploadedPhotos photoLabels selected rand) i = Some d)
  (Hdelta : 0 <= delta <= 0.2) :
  let step := delta * speed d * 2.0 in
  let goal := frameTarget mode d in
  let moved := framePosition mode d delta position in
  0 <= step < 1 /\
  vx goal - vx moved = (1 - step) * (vx goal - vx position) /\
  vy goal - vy moved = (1 - step) * (vy goal - vy position) /\
  vz goal - vz moved = (1 - step) * (vz goal - vz position).
Proof.
  pose proof (generated_speed i d Hrand Hd) as Hspeed.
  cbn zeta. unfold framePosition, Vector3_lerp. cbn [vx vy vz].
  repeat split; try ring; nra.
Qed.

End PhotoGeometry.

Lemma targetPos_on_cone_witness :
  (1.8 <= vy (Polaroids.targetPos
                (Polaroids.photoAt ["blob:1"; "blob:2"] None None
                   (fun _ => 0.5%Q) (3 * 1) 1)) < 7.2)%R.
Proof.
  apply (targetPos_on_cone ["blob:1"; "blob:2"] None None (fun _ => 0.5%Q) 1).
  reflexivity.
Defined.


Lemma framePosition_approaches_witness :
  let d := Polaroids.photoAt ["blob:1"; "blob:2"] None None
             (fun _ => 0.5%Q) (3 * 1) 1 in
  (0 <= 0.016 * Polaroids.speed d * 2.0 < 1)%R.
Proof.
  cbv zeta.
  apply (framePosition_approaches ["blob:1"; "blob:2"] None None
           (fun _ => 0.5%Q) 1 _ FORMED 0.016%R (mkVector3 0 0 0)).
  - intros k. split; vm_compute; [discriminate | reflexivity].
  - reflexivity.
  - lra.
Defined.

(* ================================================================== *)
(** * Further properties of the pinch selection *)

Section SelectionFacts.
Import Polaroids.

(** X20.  At most one photo of a render is marked as selected: the entry at
    position [i] is marked exactly when the selection is [i], so a marked
    photo exists exactly when the selection is an index of the photo list. *)
Theorem at_most_one_selected (photos : list string)
  (labels : option (list string)) (selected : option Z) (rand : RandomStream) :
  (forall i d,
     nth_error (photoData photos labels selected rand) i = Some d ->
     (isSelected d = true <-> selected = Some (Z.of_nat i))) /\
  (forall i j di dj,
     nth_error (photoData photos labels selected rand) i = Some di ->
     nth_error (photoData photos labels selected rand) j = Some dj ->
     isSelected di = true -> isSelected dj = true -> i = j) /\
  ((exists i d,
      nth_error (photoData photos labels selected rand) i = Some d /\
      isSelected d = true) <->
   (exists k, selected = Some k /\
      (0 <= k < Z.of_nat (List.length photos))%Z)).
Proof.
  assert (Hflag : forall i d,
            nth_error (photoData photos labels selected rand) i = Some d ->
            (isSelected d = true <-> selected = Some (Z.of_nat i))).
  { intros i d Hd.
    destruct (photoData_nth photos labels selected rand i d Hd) as (_ & _ & _ & ->).
    unfold isSelectedIndex. destruct selected as [k |].
    - rewrite Z.eqb_eq. split; [intros -> | intros [= ->]]; reflexivity.
    - split; discriminate. }
  split; [exact Hflag | split].
  - intros i j di dj Hi Hj Hsi Hsj.
    apply (Hflag i di Hi) in Hsi. apply (Hflag j dj Hj) in Hsj.
    rewrite Hsi in Hsj. injection Hsj as Hij. lia.
  - split.
    + intros (i & d & Hd & Hs). apply (Hflag i d Hd) in Hs.
      exists (Z.of_nat i). split; [exact Hs |].
      assert (nth_error (photoData photos labels selected rand) i <> None)
        by congruence.
      apply nth_error_Some in H. rewrite photoData_length in H. lia.
    + intros (k & Hk & Hrange).
      assert (Hlt : (Z.to_nat k < List.length
                       (photoData photos labels selected rand))%nat)
        by (rewrite photoData_length; lia).
      apply nth_error_Some in Hlt.
      destruct (nth_error (photoData photos labels selected rand) (Z.to_nat k))
        as [d |] eqn:Hd; [| congruence].
      exists (Z.to_nat k), d. split; [exact Hd |].
      apply (Hflag _ d Hd). rewrite Hk. f_equal. lia.
Qed.

Lemma renders_snoc (history : list (PolaroidsProps * Q))
  (pr : PolaroidsProps * Q) (s : State) :
  renders (history ++ [pr]) s = render (renders history s) pr.
Proof. unfold renders. now rewrite fold_left_app. Qed.

(** X21.  After any sequence of renders a photo index is selected exactly
    when the mode of the last render is PINCH and at least one photo is
    uploaded; the earlier renders and the starting state play no part. *)
Theorem selection_iff_pinch (history : list (PolaroidsProps * Q))
  (p : PolaroidsProps) (r : Q) (s : State) :
  selectedPhotoIndex (renders (history ++ [(p, r)]) s) <> None <->
  mode p = PINCH /\ uploadedPhotos p <> [].
Proof.
  rewrite renders_snoc. unfold render, selectEffect. cbn [fst snd].
  destruct (mode p); cbn [TreeMode_eqb andb selectedPhotoIndex].
  - split; [congruence | intros [H _]; discriminate H].
  - split; [congruence | intros [H _]; discriminate H].
  - destruct (uploadedPhotos p) as [| u us]; cbn.
    + split; [congruence | intros [_ H]; congruence].
    + destruct (selectedPhotoIndex (renders history s)) as [k |] eqn:Hs.
      * rewrite Hs. split; [intros _; split; congruence | congruence].
      * destruct (photoDisplayMode p); cbn;
          (split; [intros _; split; congruence | congruence]).
Qed.

Lemma selectEffect_counter (p : PolaroidsProps) (r : Q) (s : State) :
  (0 <= sequentialIndex s)%Z ->
  (0 <= sequentialIndex (selectEffect p r s))%Z /\
  (photoDisplayMode p = random ->
   sequentialIndex (selectEffect p r s) = sequentialIndex s).
Proof.
  intros H0. unfold selectEffect.
  destruct (TreeMode_eqb (mode p) PINCH
            && (0 <? Z.of_nat (List.length (uploadedPhotos p)))%Z)%bool eqn:Hc;
    [| cbn; auto].
  destruct (selectedPhotoIndex s); [auto |].
  destruct (photoDisplayMode p); cbn; [auto |].
  split; [| discriminate].
  apply andb_prop in Hc. destruct Hc as [_ Hn]. apply Z.ltb_lt in Hn.
  apply Z.rem_nonneg; lia.
Qed.

(** X22.  The sequential counter never becomes negative, and renders in
    'random' display mode never change it: from the first render on it is
    0 as long as every render is in 'random' mode. *)
Theorem counter_nonnegative (history : list (PolaroidsProps * Q)) :
  (0 <= sequentialIndex (renders history initial))%Z /\
  ((forall pr, In pr history -> photoDisplayMode (fst pr) = random) ->
   sequentialIndex (renders history initial) = 0%Z).
Proof.
  assert (H : forall s, (0 <= sequentialIndex s)%Z ->
            (0 <= sequentialIndex (renders history s))%Z /\
            ((forall pr, In pr history -> photoDisplayMode (fst pr) = random) ->
             sequentialIndex (renders history s) = sequentialIndex s)).
  { induction history as [| [p r] history IH]; intros s Hs.
    - split; [exact Hs | reflexivity].
    - change (renders ((p, r) :: history) s)
        with (renders history (selectEffect p r s)).
      destruct (selectEffect_counter p r s Hs) as [Hpos Hrandom].
      destruct (IH (selectEffect p r s) Hpos) as [IH1 IH2].
      split; [exact IH1 |].
      intros Hall. rewrite IH2.
      + apply Hrandom. apply (Hall (p, r)). now left.
      + intros pr Hpr. apply Hall. now right. }
  apply (H initial). cbn. lia.
Qed.

(** X23.  With an unchanged list of [n > 0] photos and the 'sequential'
    display mode, [k] rounds of entering and leaving PINCH advance the
    counter from [c] to [(c + k) mod n], and the next pinch entry selects
    photo [(c + k) mod n]: the photos are shown in order, round after
    round. *)
Theorem sequential_rounds (photos : list string)
  (labels : option (list string)) (r1 r2 : Q) (k : nat) (c : Z)
  (Hphotos : photos <> [])
  (Hc : (0 <= c < Z.of_nat (List.length photos))%Z) :
  let n := Z.of_nat (List.length photos) in
  let pinch := (mkProps PINCH photos sequential labels, r1) in
  let formed := (mkProps FORMED photos sequential labels, r2) in
  let s := renders (List.concat (repeat [pinch; formed] k)) (mkState None c) in
  s = mkState None ((c + Z.of_nat k) mod n) /\
  selectedPhotoIndex (render s pinch) = Some ((c + Z.of_nat k) mod n)%Z.
Proof.
  cbn zeta.
  assert (Hn : (0 < Z.of_nat (List.length photos))%Z)
    by (destruct photos; [congruence | cbn; lia]).
  assert (Hcond : (0 <? Z.of_nat (List.length photos))%Z = true)
    by now apply Z.ltb_lt.
  assert (Hrounds :
    renders (List.concat
               (repeat [(mkProps PINCH photos sequential labels, r1);
                        (mkProps FORMED photos sequential labels, r2)] k))
      (mkState None c)
    = mkState None ((c + Z.of_nat k) mod Z.of_nat (List.length photos))).
  { revert c Hc. induction k as [| k IH]; intros c Hc.
    - cbn. rewrite Z.add_0_r, Z.mod_small by lia. reflexivity.
    - cbn [repeat List.concat app renders fold_left].
      unfold render at 2 3, selectEffect. cbn. rewrite Hcond. cbn.
      rewrite Z.rem_mod_nonneg by lia.
      change (fold_left render ?l ?s) with (renders l s).
      rewrite IH by (apply Z.mod_pos_bound; lia).
      f_equal. rewrite Zplus_mod_idemp_l. f_equal. lia. }
  rewrite Hrounds. split; [reflexivity |].
  unfold render, selectEffect. cbn. rewrite Hcond. reflexivity.
Qed.

Lemma sequential_rounds_witness :
  selectedPhotoIndex
    (render
       (renders
          (List.concat
             (repeat [(mkProps PINCH ["blob:1"; "blob:2"; "blob:3"] sequential None, 0%Q);
                      (mkProps FORMED ["blob:1"; "blob:2"; "blob:3"] sequential None, 0%Q)]
                4))
          (mkState None 1))
       (mkProps PINCH ["blob:1"; "blob:2"; "blob:3"] sequential None, 0%Q))
  = Some 2%Z.
Proof.
  apply (sequential_rounds ["blob:1"; "blob:2"; "blob:3"] None 0%Q 0%Q 4 1).
  - discriminate.
  - cbn. lia.
Defined.

End SelectionFacts.

(* ================================================================== *)
(** * Further properties of the polaroid item *)

Section ItemFacts.
Import Polaroids.

Variable Texture : Type.
Variable withSRGBColorSpace : Texture -> Texture.

(** X24.  Across any sequence of loads, the item shows what the latest
    load gave: after a successful load the photo area has the loaded
    texture (in the sRGB colour space) and the label is the photo's label,
    whatever failed before; after a failed load it has the placeholder
    material and 'Image not found', whatever was loaded before. *)
Theorem item_shows_latest_load (data : PhotoData)
  (earlier : list (LoadOutcome Texture)) (latest : LoadOutcome Texture)
  (s : ItemState Texture) (photoLabel : string) :
  let s' := loadTextures Texture withSRGBColorSpace data (earlier ++ [latest]) s in
  match latest with
  | Loaded _ loadedTex =>
      photoMaterial Texture s'
      = meshBasicMaterial Texture (withSRGBColorSpace loadedTex) /\
      labelText Texture s' photoLabel = photoLabel
  | LoadFailed _ _ =>
      photoMaterial Texture s' = meshStandardMaterial Texture "#550000" /\
      labelText Texture s' photoLabel = "Image not found"
  end.
Proof.
  cbn zeta. unfold loadTextures. rewrite fold_left_app. cbn [fold_left].
  set (s0 := fold_left _ earlier s).
  destruct latest as [tex | err]; cbn.
  - split; reflexivity.
  - split; [destruct (texture Texture s0) |]; reflexivity.
Qed.

End ItemFacts.

(* ================================================================== *)
(** * Instances of the further properties *)

Lemma handleFileChange_called_iff_witness :
  UIOverlay.handleFileChange
    (Some [UIOverlay.mkFile "image/png" (UIOverlay.ReadLoaded "data:image/png;base64,AAAA")])
  = [["data:image/png;base64,AAAA"]].
Proof.
  apply (handleFileChange_called_iff
           [UIOverlay.mkFile "image/png"
              (UIOverlay.ReadLoaded "data:image/png;base64,AAAA")]
           ["data:image/png;base64,AAAA"]).
  split; [discriminate | split; [| reflexivity]].
  intros f [<- | []] _. eexists. split; reflexivity.
Defined.

Lemma calls_only_for_edited_photos_witness :
  UIOverlay.editingPhotoIndex (UIOverlay.editorInitial ["Paris"]) = Some 2%nat \/
  In (UIOverlay.PhotoEdit 2)
     [UIOverlay.PhotoEdit 2; UIOverlay.LabelChange "Oslo"; UIOverlay.SaveLabel].
Proof.
  apply (proj1 (calls_only_for_edited_photos true ["Paris"]
                  [UIOverlay.PhotoEdit 2; UIOverlay.LabelChange "Oslo";
                   UIOverlay.SaveLabel]
                  (UIOverlay.editorInitial ["Paris"])) 2%nat "Oslo").
  cbn. now left.
Defined.

Lemma player_flag_covers_sound_witness :
  MusicPlayer.paused (MusicPlayer.mkAudio "carol.mp3" true 0.5%Q true) = true.
Proof.
  apply (player_flag_covers_sound "carol.mp3"
           [MusicPlayer.Click MusicPlayer.PlayStarted;
            MusicPlayer.Click MusicPlayer.PlayStarted]
           (MusicPlayer.mkAudio "carol.mp3" true 0.5%Q true));
    reflexivity.
Defined.

Lemma at_most_one_selected_witness :
  exists i d,
    nth_error
      (Polaroids.photoData ["blob:1"; "blob:2"] None (Some 1%Z) (fun _ => 0.5%Q)) i
    = Some d /\
    Polaroids.isSelected d = true.
Proof.
  apply (at_most_one_selected ["blob:1"; "blob:2"] None (Some 1%Z)
           (fun _ => 0.5%Q)).
  exists 1%Z. split; [reflexivity | cbn; lia].
Defined.

Lemma selection_iff_pinch_witness :
  Polaroids.selectedPhotoIndex
    (Polaroids.renders
       ([(Polaroids.mkProps FORMED ["blob:1"] Polaroids.random None, 0.5%Q)]
        ++ [(Polaroids.mkProps PINCH ["blob:1"] Polaroids.random None, 0.5%Q)])
       Polaroids.initial)
  <> None.
Proof.
  apply (selection_iff_pinch
           [(Polaroids.mkProps FORMED ["blob:1"] Polaroids.random None, 0.5%Q)]
           (Polaroids.mkProps PINCH ["blob:1"] Polaroids.random None) 0.5%Q
           Polaroids.initial).
  split; [reflexivity | discriminate].
Defined.

Lemma counter_nonnegative_witness :
  Polaroids.sequentialIndex
    (Polaroids.renders
       [(Polaroids.mkProps PINCH ["blob:1"; "blob:2"] Polaroids.random None, 0.7%Q);
        (Polaroids.mkProps FORMED ["blob:1"; "blob:2"] Polaroids.random None, 0.1%Q)]
       Polaroids.initial)
  = 0%Z.
Proof.
  apply (proj2 (counter_nonnegative
                  [(Polaroids.mkProps PINCH ["blob:1"; "blob:2"] Polaroids.random None,
                    0.7%Q);
                   (Polaroids.mkProps FORMED ["blob:1"; "blob:2"] Polaroids.random None,
                    0.1%Q)])).
  intros pr [<- | [<- | []]]; reflexivity.
Defined.
